(** * vibeout: the video metadata service and its ingestion script

    A shallow embedding of [server/main.py] (the FastAPI resource API over
    the [videos] table) and of [server/quip_download.py] (the feed
    ingestion script), with the properties of the specification stated
    over it.

    Modelling conventions.
    - The [videos] table is a list of rows in storage order; the primary
      key and the [nullable=False] columns of the [Video] model are
      enforced by the statements that write rows, as the engine does.
      Column widths ([String(n)], 32-bit [Integer]) are not modelled.
    - Python [str] is [string], a character being a code point below
      256; Python [int] is [Z]; [None] is [None].
    - [datetime.utcnow()] reads a clock kept in the state; every read
      takes the time elapsed since the previous read as an input of type
      [N], so readings never decrease.
    - An exception that escapes a handler is the response [Unhandled]
      (HTTP 500); the session is closed without a commit, so the table is
      the one before the request. A response that its response model
      refuses is [Unhandled] too, but by then the handler has committed.
    - Time is counted from the engine's zero date: the clock of an
      initial state is not before it. *)

From Stdlib Require Import ZArith NArith List String Ascii Bool Lia.
From Stdlib Require Import Permutation Sorted.
Import ListNotations.

Local Open Scope string_scope.
Local Open Scope Z_scope.

(** ** Data model *)

(** One row of [videos] (class [Video]): [url], [name], [title], [views],
    [created_at], [updated_at] are [nullable=False]. *)
Record Video := mkVideo {
  id : string;
  url : string;
  name : string;
  title : string;
  image : option string;
  video : option string;
  user : option string;
  poster : option string;
  script : option string;
  views : Z;
  created_at : Z;
  updated_at : Z
}.

(** The state: the committed table and the last clock reading. *)
Record World := mkWorld {
  table : list Video;
  clock : Z
}.

(** [datetime.utcnow()], [dt] after the previous reading. *)
Definition utcnow (dt : N) (w : World) : Z * World :=
  let t := clock w + Z.of_N dt in (t, mkWorld (table w) t).

(** The string attributes that [VideoUpdate] and [VideoBase] declare. *)
Inductive field :=
| Furl | Fname | Ftitle | Fimage | Fvideo | Fuser | Fposter | Fscript.

Definition all_fields : list field :=
  [Furl; Fname; Ftitle; Fimage; Fvideo; Fuser; Fposter; Fscript].

Definition field_eqb (f g : field) : bool :=
  match f, g with
  | Furl, Furl | Fname, Fname | Ftitle, Ftitle | Fimage, Fimage
  | Fvideo, Fvideo | Fuser, Fuser | Fposter, Fposter | Fscript, Fscript => true
  | _, _ => false
  end.

(** [nullable] of the column behind each attribute. *)
Definition nullable (f : field) : bool :=
  match f with
  | Furl | Fname | Ftitle => false
  | _ => true
  end.

(** A mapped [Video] instance inside a session: assignments may put [None]
    in any attribute; the constraints are checked when it is flushed. *)
Record Obj := mkObj {
  o_id : string;
  o_url : option string;
  o_name : option string;
  o_title : option string;
  o_image : option string;
  o_video : option string;
  o_user : option string;
  o_poster : option string;
  o_script : option string;
  o_views : Z;
  o_created_at : Z;
  o_updated_at : Z
}.

Definition load (v : Video) : Obj :=
  mkObj (id v) (Some (url v)) (Some (name v)) (Some (title v))
        (image v) (video v) (user v) (poster v) (script v)
        (views v) (created_at v) (updated_at v).

(** Flushing an instance: [None] in a [nullable=False] column is an
    integrity error. *)
Definition flush (o : Obj) : option Video :=
  match o_url o, o_name o, o_title o with
  | Some u, Some n, Some t =>
      Some (mkVideo (o_id o) u n t (o_image o) (o_video o) (o_user o)
                    (o_poster o) (o_script o) (o_views o)
                    (o_created_at o) (o_updated_at o))
  | _, _, _ => None
  end.

Definition getattr (f : field) (o : Obj) : option string :=
  match f with
  | Furl => o_url o | Fname => o_name o | Ftitle => o_title o
  | Fimage => o_image o | Fvideo => o_video o | Fuser => o_user o
  | Fposter => o_poster o | Fscript => o_script o
  end.

Definition setattr (o : Obj) (f : field) (x : option string) : Obj :=
  match f with
  | Furl => mkObj (o_id o) x (o_name o) (o_title o) (o_image o) (o_video o) (o_user o) (o_poster o) (o_script o) (o_views o) (o_created_at o) (o_updated_at o)
  | Fname => mkObj (o_id o) (o_url o) x (o_title o) (o_image o) (o_video o) (o_user o) (o_poster o) (o_script o) (o_views o) (o_created_at o) (o_updated_at o)
  | Ftitle => mkObj (o_id o) (o_url o) (o_name o) x (o_image o) (o_video o) (o_user o) (o_poster o) (o_script o) (o_views o) (o_created_at o) (o_updated_at o)
  | Fimage => mkObj (o_id o) (o_url o) (o_name o) (o_title o) x (o_video o) (o_user o) (o_poster o) (o_script o) (o_views o) (o_created_at o) (o_updated_at o)
  | Fvideo => mkObj (o_id o) (o_url o) (o_name o) (o_title o) (o_image o) x (o_user o) (o_poster o) (o_script o) (o_views o) (o_created_at o) (o_updated_at o)
  | Fuser => mkObj (o_id o) (o_url o) (o_name o) (o_title o) (o_image o) (o_video o) x (o_poster o) (o_script o) (o_views o) (o_created_at o) (o_updated_at o)
  | Fposter => mkObj (o_id o) (o_url o) (o_name o) (o_title o) (o_image o) (o_video o) (o_user o) x (o_script o) (o_views o) (o_created_at o) (o_updated_at o)
  | Fscript => mkObj (o_id o) (o_url o) (o_name o) (o_title o) (o_image o) (o_video o) (o_user o) (o_poster o) x (o_views o) (o_created_at o) (o_updated_at o)
  end.

Definition set_views (o : Obj) (n : Z) : Obj :=
  mkObj (o_id o) (o_url o) (o_name o) (o_title o) (o_image o) (o_video o)
        (o_user o) (o_poster o) (o_script o) n (o_created_at o) (o_updated_at o).

Definition set_updated_at (o : Obj) (t : Z) : Obj :=
  mkObj (o_id o) (o_url o) (o_name o) (o_title o) (o_image o) (o_video o)
        (o_user o) (o_poster o) (o_script o) (o_views o) (o_created_at o) t.

(** The value of a string column of a stored row, [None] for SQL NULL. *)
Definition column (f : field) (v : Video) : option string := getattr f (load v).

(** ** Table access *)

(** [db.query(Video).filter(Video.id == video_id).first()] *)
Definition query_first (video_id : string) (t : list Video) : option Video :=
  find (fun v => String.eqb (id v) video_id) t.

(** UPDATE of the row with the key of [v']. *)
Definition replace_row (v' : Video) (t : list Video) : list Video :=
  map (fun v => if String.eqb (id v) (id v') then v' else v) t.

(** DELETE of the row with key [k]. *)
Definition delete_row (k : string) (t : list Video) : list Video :=
  filter (fun v => negb (String.eqb (id v) k)) t.

Definition ids (t : list Video) : list string := map id t.

Definition has_id (k : string) (t : list Video) : bool :=
  existsb (fun v => String.eqb (id v) k) t.

(** ** Responses *)

Record PaginatedResponse := mkPage {
  total : Z;
  page : Z;
  page_size : Z;
  total_pages : Z;
  videos : list Video
}.

Inductive Response :=
| Ok (v : Video)                       (* 200 with a video *)
| OkPage (p : PaginatedResponse)       (* 200 with a paginated body *)
| Created (v : Video)                  (* 201 *)
| NoContent                            (* 204 *)
| HTTPException (status_code : Z) (detail : string)
| Unprocessable                        (* 422, request validation *)
| Unhandled.                           (* 500, exception out of the handler *)

(** [VideoResponse]: what a handler returns is validated against its
    response model after the handler has run, its commit included. A
    stored row has every required key; [views: int = Field(..., ge=0)] is
    the one constraint it can fail, and a failure is answered 500. *)
Definition VideoResponse_valid (v : Video) : bool := 0 <=? views v.

(** [response_model=VideoResponse] *)
Definition respond_video (v : Video) : Response :=
  if VideoResponse_valid v then Ok v else Unhandled.

(** [response_model=PaginatedResponse], whose [videos] are
    [List[VideoResponse]]. *)
Definition respond_page (p : PaginatedResponse) : Response :=
  if forallb VideoResponse_valid (videos p) then OkPage p else Unhandled.

(** ** [VideoUpdate] and [update_video] *)

(** Python's [str.isspace] on the code points below 256. *)
Definition is_space (c : ascii) : bool :=
  let n := nat_of_ascii c in
  ((9 <=? n) && (n <=? 13) || (28 <=? n) && (n <=? 32)
   || (n =? 133) || (n =? 160))%nat.

Fixpoint all_space (s : string) : bool :=
  match s with
  | EmptyString => true
  | String c s' => is_space c && all_space s'
  end.

(** [VideoUpdate.empty_to_none]: [v.strip() == ""] holds exactly when every
    character of [v] is white space. *)
Definition empty_to_none (v : option string) : option string :=
  match v with
  | Some s => if all_space s then None else Some s
  | None => None
  end.

(** A JSON body for PUT: for each declared key, not supplied ([None]),
    supplied as null ([Some None]) or as a string. After validation the
    same shape is the [VideoUpdate] model: the supplied keys are its
    [fields_set]. *)
Definition VideoUpdate := field -> option (option string).

Definition VideoUpdate_validate (body : field -> option (option string)) : VideoUpdate :=
  fun f => option_map empty_to_none (body f).

(** [payload.dict(exclude_unset=True)] *)
Definition dict_exclude_unset (payload : VideoUpdate) : list (field * option string) :=
  flat_map (fun f => match payload f with
                     | Some x => [(f, x)]
                     | None => []
                     end) all_fields.

Definition apply_updates (o : Obj) (updates : list (field * option string)) : Obj :=
  fold_left (fun o kv => setattr o (fst kv) (snd kv)) updates o.

(** The returned row is checked against [VideoResponse] after the
    commit. *)
Definition update_video (payload : VideoUpdate) (video_id : string) (dt : N)
    (w : World) : Response * World :=
  let updates := dict_exclude_unset payload in
  match updates with
  | [] => (HTTPException 400 "No fields provided for update", w)
  | _ =>
      match query_first video_id (table w) with
      | None => (HTTPException 404 "Video not found", w)
      | Some v =>
          let o := apply_updates (load v) updates in
          let (now, w1) := utcnow dt w in
          let o := set_updated_at o now in
          match flush o with
          | Some v' =>
              (respond_video v', mkWorld (replace_row v' (table w1)) (clock w1))
          | None => (Unhandled, w1)
          end
      end
  end.

(** PUT /videos/{video_id}: the body is validated into a [VideoUpdate],
    then handled. *)
Definition put_video (body : field -> option (option string)) (video_id : string)
    (dt : N) (w : World) : Response * World :=
  update_video (VideoUpdate_validate body) video_id dt w.

(** ** [get_video] *)

(** The commit after [video.views += 1] is an UPDATE that does not assign
    [updated_at], so the column's [onupdate=datetime.utcnow] is evaluated
    for it. The returned row is checked against [VideoResponse] after the
    commit. *)
Definition get_video (video_id : string) (dt : N) (w : World) : Response * World :=
  match query_first video_id (table w) with
  | None => (HTTPException 404 "Video not found", w)
  | Some v =>
      let o := set_views (load v) (views v + 1) in
      let (now, w1) := utcnow dt w in
      let o := set_updated_at o now in
      match flush o with
      | Some v' =>
          (respond_video v', mkWorld (replace_row v' (table w1)) (clock w1))
      | None => (Unhandled, w1)
      end
  end.

(** ** [create_video] *)

(** [VideoCreate] (the fields of [VideoBase]). *)
Record VideoCreate := mkVideoCreate {
  c_url : string;
  c_name : string;
  c_title : string;
  c_image : option string;
  c_video : option string;
  c_user : option string;
  c_poster : option string;
  c_script : option string
}.

(** Validation of a POST body: the three required keys must carry a
    string. *)
Definition VideoCreate_validate (body : field -> option (option string)) : option VideoCreate :=
  match body Furl, body Fname, body Ftitle with
  | Some (Some u), Some (Some n), Some (Some t) =>
      let opt f := match body f with Some x => x | None => None end in
      Some (mkVideoCreate u n t (opt Fimage) (opt Fvideo) (opt Fuser)
                          (opt Fposter) (opt Fscript))
  | _, _, _ => None
  end.

Definition hex_digit (d : Z) : ascii :=
  if d <? 10 then ascii_of_nat (Z.to_nat (48 + d))
  else ascii_of_nat (Z.to_nat (87 + d)).

(** The [n] low hexadecimal digits of [x], most significant first. *)
Fixpoint hex_digits (n : nat) (x : Z) : string :=
  match n with
  | O => EmptyString
  | S n' => hex_digits n' (x / 16) ++ String (hex_digit (x mod 16)) EmptyString
  end.

(** [uuid.UUID(bytes=..., version=4).int]: the sixteen random bytes read as
    a number, with the variant and version bits forced. *)
Definition uuid4_int (entropy : N) : Z :=
  let i := Z.of_N entropy mod 2 ^ 128 in
  let i := Z.land i (Z.lnot (Z.shiftl 49152 48)) in
  let i := Z.lor i (Z.shiftl 32768 48) in
  let i := Z.land i (Z.lnot (Z.shiftl 61440 64)) in
  Z.lor i (Z.shiftl 4 76).

(** [uuid.uuid4().hex], that is ['%032x' % int]; the number is below
    [2 ^ 128], so the padded rendering has exactly 32 digits. *)
Definition uuid4_hex (entropy : N) : string := hex_digits 32 (uuid4_int entropy).

(** [db.add(video); db.commit()]: the INSERT evaluates the column defaults
    [views = 0], [created_at = utcnow()], [updated_at = utcnow()], one call
    each in column order; a key that is already present is an integrity
    error. *)
Definition create_video (payload : VideoCreate) (entropy : N) (dt1 dt2 : N)
    (w : World) : Response * World :=
  let vid := uuid4_hex entropy in
  let (c, w1) := utcnow dt1 w in
  let (u, w2) := utcnow dt2 w1 in
  let v := mkVideo vid (c_url payload) (c_name payload) (c_title payload)
                   (c_image payload) (c_video payload) (c_user payload)
                   (c_poster payload) (c_script payload) 0 c u in
  if has_id vid (table w2) then (Unhandled, w2)
  else (Created v, mkWorld (table w2 ++ [v]) (clock w2)).

(** POST /videos *)
Definition post_video (body : field -> option (option string)) (entropy : N)
    (dt1 dt2 : N) (w : World) : Response * World :=
  match VideoCreate_validate body with
  | Some payload => create_video payload entropy dt1 dt2 w
  | None => (Unprocessable, w)
  end.

(** ** [delete_video] *)

Definition delete_video (video_id : string) (w : World) : Response * World :=
  match query_first video_id (table w) with
  | None => (HTTPException 404 "Video not found", w)
  | Some v => (NoContent, mkWorld (delete_row (id v) (table w)) (clock w))
  end.

(** ** [list_videos] *)

(** ORDER BY with a total comparison [le]: rows in key order, rows with
    equal keys in storage order. *)
Fixpoint insert_sorted {A} (le : A -> A -> bool) (x : A) (l : list A) : list A :=
  match l with
  | [] => [x]
  | y :: l' => if le x y then x :: l else y :: insert_sorted le x l'
  end.

Definition order_by {A} (le : A -> A -> bool) (l : list A) : list A :=
  fold_right (insert_sorted le) [] l.

Definition views_desc (a b : Video) : bool := views b <=? views a.
Definition created_at_desc (a b : Video) : bool := created_at b <=? created_at a.
Definition title_asc (collation : string -> string -> bool) (a b : Video) : bool :=
  collation (title a) (title b).

(** [query.offset(offset).limit(page_size).all()] *)
Definition offset_limit {A} (offset limit : Z) (l : list A) : list A :=
  firstn (Z.to_nat limit) (skipn (Z.to_nat offset) l).

(** The [Query] constraints on [page] and [page_size]. *)
Definition valid_paging (page page_size : Z) : bool :=
  (1 <=? page) && (1 <=? page_size) && (page_size <=? 100).

(** [regex="^(views|title|created_at)$"] on an optional parameter. *)
Definition valid_sort_by (sort_by : option string) : bool :=
  match sort_by with
  | None => true
  | Some s => String.eqb s "views" || String.eqb s "title" || String.eqb s "created_at"
  end.

(** [collation] is the order the store gives to titles. The returned page
    is checked against [PaginatedResponse]. *)
Definition list_videos (collation : string -> string -> bool)
    (page page_size : Z) (sort_by : option string) (w : World) : Response * World :=
  if negb (valid_paging page page_size && valid_sort_by sort_by) then (Unprocessable, w)
  else
    let total := Z.of_nat (List.length (table w)) in
    let offset := (page - 1) * page_size in
    let total_pages := (total + page_size - 1) / page_size in
    let sort_is s := match sort_by with Some x => String.eqb x s | None => false end in
    let query :=
      if sort_is "views" then order_by views_desc (table w)
      else if sort_is "title" then order_by (title_asc collation) (table w)
      else order_by created_at_desc (table w) in
    let videos := offset_limit offset page_size query in
    (respond_page (mkPage total page page_size total_pages videos), w).

(** ** [search_videos] *)

(** [str.lower] and SQL [lower] on the code points below 256: the letters
    A to Z and the capital letters of Latin-1 (192 to 214 and 216 to 222)
    move up by 32; no other character below 256 changes. *)
Definition lower_char (c : ascii) : ascii :=
  let n := nat_of_ascii c in
  if ((65 <=? n) && (n <=? 90) || (192 <=? n) && (n <=? 214)
      || (216 <=? n) && (n <=? 222))%nat
  then ascii_of_nat (n + 32) else c.

Fixpoint lower (s : string) : string :=
  match s with
  | EmptyString => EmptyString
  | String c s' => String (lower_char c) (lower s')
  end.

(** SQL [LIKE]: [%] matches any run of characters, [_] any one character,
    a backslash makes the next pattern character literal. *)
Fixpoint like (p : string) : string -> bool :=
  match p with
  | EmptyString => fun s => match s with EmptyString => true | _ => false end
  | String c p' =>
      if Ascii.eqb c "%" then
        fix star (s : string) : bool :=
          like p' s || match s with EmptyString => false | String _ s' => star s' end
      else if Ascii.eqb c "_" then
        fun s => match s with EmptyString => false | String _ s' => like p' s' end
      else if Ascii.eqb c "\" then
        match p' with
        | EmptyString =>
            fun s => match s with
                     | String x EmptyString => Ascii.eqb x "\"
                     | _ => false
                     end
        | String e p'' =>
            fun s => match s with
                     | EmptyString => false
                     | String x s' => Ascii.eqb x e && like p'' s'
                     end
        end
      else
        fun s => match s with
                 | EmptyString => false
                 | String x s' => Ascii.eqb x c && like p' s'
                 end
  end.

(** [column.ilike(pattern)], rendered [lower(column) LIKE lower(pattern)];
    a NULL column does not match. *)
Definition ilike (col : option string) (pattern : string) : bool :=
  match col with
  | Some s => like (lower pattern) (lower s)
  | None => false
  end.

Definition search_filter (q : string) (v : Video) : bool :=
  let search_pattern := "%" ++ q ++ "%" in
  ilike (Some (title v)) search_pattern
  || ilike (Some (name v)) search_pattern
  || ilike (script v) search_pattern.

(** [q] is [None] when the parameter is missing. *)
Definition search_videos (q : option string) (page page_size : Z) (w : World)
    : Response * World :=
  match q with
  | None => (Unprocessable, w)
  | Some q =>
      if negb ((1 <=? String.length q)%nat && valid_paging page page_size)
      then (Unprocessable, w)
      else
        let query := filter (search_filter q) (table w) in
        let total := Z.of_nat (List.length query) in
        let offset := (page - 1) * page_size in
        let total_pages := (total + page_size - 1) / page_size in
        let videos := offset_limit offset page_size (order_by views_desc query) in
        (respond_page (mkPage total page page_size total_pages videos), w)
  end.

(** ** Ingestion ([quip_download.py]) *)

(** The [payload] dictionary of [upsert_videos]: the ten keys read from a
    feed element with [dict.get], [None] for a missing key or a JSON null.
    Values are of the type of their column. The keys of a feed object are
    modelled by the same record. *)
Record Payload := mkPayload {
  p_id : option string;
  p_url : option string;
  p_name : option string;
  p_title : option string;
  p_image : option string;
  p_video : option string;
  p_user : option string;
  p_views : option Z;
  p_poster : option string;
  p_script : option string
}.

(** An element of the JSON array that the feed returns: an object, or any
    other JSON value (null, a number, a string, an array), which has no
    [get]. [fetch_video_data] checks that the body is a list and nothing
    about its elements. *)
Inductive FeedItem :=
| Object (keys : Payload)
| NotObject.

(** [video.get("id")] *)
Definition get_id (video : FeedItem) : option (option string) :=
  match video with
  | Object keys => Some (p_id keys)
  | NotObject => None
  end.

(** The dictionary [payload] built from [video]; [None] stands for the
    AttributeError that [video.get] raises on an element that is not an
    object. *)
Definition get_payload (video : FeedItem) : option Payload :=
  match video with
  | Object keys =>
      Some (mkPayload (p_id keys) (p_url keys) (p_name keys) (p_title keys)
                      (p_image keys) (p_video keys) (p_user keys)
                      (p_views keys) (p_poster keys) (p_script keys))
  | NotObject => None
  end.

(** The row that the VALUES clause of the statement denotes, as a function
    of the two timestamps that the statement does not name; [None] when
    [id], [url], [name], [title] or [views] is NULL, which their columns
    refuse. *)
Definition values (p : Payload) : option (Z -> Z -> Video) :=
  match p_id p, p_url p, p_name p, p_title p, p_views p with
  | Some i, Some u, Some n, Some ti, Some vw =>
      Some (fun c up => mkVideo i u n ti (p_image p) (p_video p) (p_user p)
                                (p_poster p) (p_script p) vw c up)
  | _, _, _, _, _ => None
  end.

(** [cursor.execute(sql, payload)] on the connection's view [t] of the
    table. The statement names neither [created_at] nor [updated_at]: a
    new row takes for them what the engine supplies, [dflt], and the
    statement is refused when the engine supplies nothing; on a duplicate
    key the nine listed columns are assigned and the two timestamps are
    kept. *)
Definition execute (dflt : option Z) (p : Payload) (t : list Video) : option (list Video) :=
  match values p, dflt with
  | Some row, Some d =>
      match query_first (id (row d d)) t with
      | None => Some (t ++ [row d d])%list
      | Some old => Some (replace_row (row (created_at old) (updated_at old)) t)
      end
  | _, _ => None
  end.

Inductive LogLine :=
| Processed (idx total : nat) (vid : option string)
| FailedUpsert (vid : option string)
| CommitSuccessful
| CommitFailed
| NoRecords
| AllProcessed.

(** The engine's zero date, [0000-00-00 00:00:00]; time is counted from
    it. *)
Definition zero_date : Z := 0.

(** The environment of one run. The table is the one that [create_all]
    makes for the [Video] model: [created_at] and [updated_at] are
    [DATETIME NOT NULL] with no default in the DDL, since the model's
    [default=datetime.utcnow] and [onupdate] are applied by the ORM only.
    [ts_default]: whether the engine fills such a column when an INSERT
    leaves it out (outside strict mode, with the implicit default of the
    type, the zero date) or refuses the statement (strict mode). [delay]:
    the time that each statement takes. [commit_ok]: whether the final
    commit succeeds. *)
Record Env := mkEnv {
  ts_default : bool;
  delay : nat -> N;
  commit_ok : bool
}.

(** What the engine supplies for a timestamp column that an INSERT leaves
    out. *)
Definition column_default (e : Env) : option Z :=
  if ts_default e then Some zero_date else None.

(** One iteration of the loop of [upsert_videos], on the connection's view
    of the table, the clock and the log. The handler of the [try] names
    [mysql.connector.Error] only, so it logs a statement that the engine
    refuses, while the AttributeError of an element that is not an object
    leaves the loop: [None]. The clock advances by the time that the
    statement takes. *)
Definition upsert_one (e : Env) (total : nat) (idx : nat) (video : FeedItem)
    (st : World * list LogLine) : option (World * list LogLine) :=
  let (w, log) := st in
  match get_payload video, get_id video with
  | Some payload, Some video_id =>
      let w1 := snd (utcnow (delay e idx) w) in
      match execute (column_default e) payload (table w1) with
      | Some t' =>
          Some (mkWorld t' (clock w1),
                (log ++ [Processed idx total (p_id payload)])%list)
      | None => Some (w1, (log ++ [FailedUpsert video_id])%list)
      end
  | _, _ => None
  end.

(** [for idx, video in enumerate(videos, start=...)]: the state after the
    last iteration that ended, and whether an exception left the loop. *)
Fixpoint upsert_loop (e : Env) (total : nat) (idx : nat) (videos : list FeedItem)
    (st : World * list LogLine) : World * list LogLine * bool :=
  match videos with
  | [] => (st, false)
  | video :: rest =>
      match upsert_one e total idx video st with
      | Some st' => upsert_loop e total (S idx) rest st'
      | None => (st, true)
      end
  end.

(** [upsert_videos]: the loop, then one commit. The result is the exit
    status with which the process ends when an exception leaves the
    function ([None] when the function returns), the log and the state.
    [sys.exit(1)] after a failed commit and an AttributeError out of the
    loop both end the process with status 1; the latter passes the commit
    by, and the [finally] of [main] then closes the connection, which
    discards the statements of the run. The count of affected rows is only
    logged and is left out. *)
Definition upsert_videos (e : Env) (videos : list FeedItem) (w : World)
    : option Z * list LogLine * World :=
  let total := List.length videos in
  match upsert_loop e total 1 videos (w, []) with
  | (w1, log, true) => (Some 1, log, mkWorld (table w) (clock w1))
  | (w1, log, false) =>
      if commit_ok e then (None, (log ++ [CommitSuccessful])%list, w1)
      else (Some 1, (log ++ [CommitFailed])%list, mkWorld (table w) (clock w1))
  end.

(** [main], from the fetched feed on: the process exit status, the log and
    the state. *)
Definition main (e : Env) (videos : list FeedItem) (w : World)
    : Z * list LogLine * World :=
  match videos with
  | [] => (0, [NoRecords], w)
  | _ =>
      match upsert_videos e videos w with
      | (Some code, log, w') => (code, log, w')
      | (None, log, w') => (0, (log ++ [AllProcessed])%list, w')
      end
  end.

(** ** Notions used to state the properties *)


Definition is_hex (c : ascii) : bool :=
  let n := nat_of_ascii c in
  ((48 <=? n) && (n <=? 57) || (97 <=? n) && (n <=? 102))%nat.

Fixpoint all_hex (s : string) : bool :=
  match s with
  | EmptyString => true
  | String c s' => is_hex c && all_hex s'
  end.



(** The records of a feed that the loop reaches: the objects before the
    first element that is not one. *)
Fixpoint records (feed : list FeedItem) : list Payload :=
  match feed with
  | Object keys :: rest => keys :: records rest
  | _ => []
  end.

(** Whether some element of the feed is not an object. *)
Fixpoint aborts (feed : list FeedItem) : bool :=
  match feed with
  | [] => false
  | Object _ :: rest => aborts rest
  | NotObject :: _ => true
  end.

(** One iteration of the loop on a record. *)
Definition upsert_record (e : Env) (total : nat) (idx : nat) (p : Payload)
    (st : World * list LogLine) : World * list LogLine :=
  let (w, log) := st in
  let w1 := snd (utcnow (delay e idx) w) in
  match execute (column_default e) p (table w1) with
  | Some t' => (mkWorld t' (clock w1), (log ++ [Processed idx total (p_id p)])%list)
  | None => (w1, (log ++ [FailedUpsert (p_id p)])%list)
  end.

(** The loop over records. *)
Fixpoint loop_records (e : Env) (total : nat) (idx : nat) (ps : list Payload)
    (st : World * list LogLine) : World * list LogLine :=
  match ps with
  | [] => st
  | p :: rest => loop_records e total (S idx) rest (upsert_record e total idx p st)
  end.

(** A feed record that the upsert statement accepts. *)
Definition accepted (e : Env) (p : Payload) : bool :=
  match values p with
  | Some _ => ts_default e
  | None => false
  end.

(** The log line of the [idx]-th record of a feed of [total]. *)
Definition log_line (e : Env) (total idx : nat) (p : Payload) : LogLine :=
  if accepted e p then Processed idx total (p_id p) else FailedUpsert (p_id p).

(** The effect of one accepted record on a row that has its key: the nine
    listed columns are overwritten, the timestamps stay. *)
Definition rewrite_row (p : Payload) (v : Video) : Video :=
  match values p with
  | Some row =>
      if String.eqb (id v) (id (row 0 0))
      then row (created_at v) (updated_at v) else v
  | None => v
  end.

(** The connection's view of the table after one statement, refused or
    not. *)
Definition upsert_table (dflt : option Z) (p : Payload) (t : list Video) : list Video :=
  match execute dflt p t with
  | Some t' => t'
  | None => t
  end.

Definition overwrite (feed : list Payload) (v : Video) : Video :=
  fold_left (fun v p => rewrite_row p v) feed v.





(** [s] contains [q]: the plain substring relation. *)
Definition contains (q s : string) : Prop :=
  exists pre post, s = pre ++ q ++ post.

(** A query with none of the characters that [LIKE] reads specially. *)
Fixpoint plain (q : string) : bool :=
  match q with
  | EmptyString => true
  | String c q' =>
      negb (Ascii.eqb c "%") && negb (Ascii.eqb c "_") && negb (Ascii.eqb c "\")
      && plain q'
  end.

(** One pass of the loop [for key, value in updates.items()] seen key by
    key of the model. *)
Definition assign (payload : VideoUpdate) (o : Obj) (f : field) : Obj :=
  match payload f with
  | Some x => setattr o f x
  | None => o
  end.

(** The row [v] after [k] more views, last written at [t]. *)
Definition viewed (v : Video) (k : Z) (t : Z) : Video :=
  mkVideo (id v) (url v) (name v) (title v) (image v) (video v) (user v)
          (poster v) (script v) (views v + k) (created_at v) t.


(** ** The script around [upsert_videos] ([quip_download.py]) *)

(** What [requests.get(url).json()] gives [fetch_video_data]. *)
Inductive Fetched :=
| RequestFailed                     (* network error or error status *)
| NotJson                           (* the body does not decode *)
| NotAList                          (* JSON, but not an array *)
| Data (data : list FeedItem).

(** The lines of the whole script: those of [get_db_connection],
    [fetch_video_data] and [main] around the lines of the batch. *)
Inductive Event :=
| Connected
| ConnectionError
| FetchedRecords (n : nat)
| FetchError
| Line (l : LogLine)
| ConnectionClosed.

(** [fetch_video_data]: the list, or the status of [sys.exit]. *)
Definition fetch_video_data (r : Fetched) : list Event * (Z + list FeedItem) :=
  match r with
  | Data data => ([FetchedRecords (List.length data)], inr data)
  | NotAList => ([FetchError], inl 1)
  | RequestFailed => ([FetchError], inl 1)
  | NotJson => ([FetchError], inl 1)
  end.

(** The script from [get_db_connection] on: [connect_ok] tells whether the
    connection is made; the [finally] of [main] closes it on every path,
    also when [sys.exit] unwinds. Part [main] above is the body between
    the fetch and the [finally]. *)
Definition run_main (connect_ok : bool) (r : Fetched) (e : Env) (w : World)
    : Z * list Event * World :=
  if negb connect_ok then (1, [ConnectionError], w)
  else
    match fetch_video_data r with
    | (evs, inl code) => (code, (Connected :: evs ++ [ConnectionClosed])%list, w)
    | (evs, inr videos) =>
        match main e videos w with
        | (code, log, w') =>
            (code, (Connected :: evs ++ map Line log ++ [ConnectionClosed])%list, w')
        end
    end.

(** ** The front end ([streamlit_front/app.py]) *)

(** The front end works on the videos as the API returns them, so a video
    dictionary is a [Video]: every key of the response model is present. *)


(** [sorted(videos, key=views, reverse=True)]: by views from high to low,
    videos with equal views in their given order. *)
Definition sort_by_views (videos : list Video) : list Video :=
  order_by views_desc videos.

(** Python's [q in s]. *)
Fixpoint startswith (s q : string) : bool :=
  match q, s with
  | EmptyString, _ => true
  | String a q', String b s' => Ascii.eqb a b && startswith s' q'
  | String _ _, EmptyString => false
  end.

Fixpoint str_in (q s : string) : bool :=
  startswith s q
  || match s with
     | EmptyString => false
     | String _ s' => str_in q s'
     end.

Definition filter_by_title (videos : list Video) (query : string) : list Video :=
  match query with
  | EmptyString => videos
  | _ =>
      let q := lower query in
      filter (fun v => str_in q (lower (title v))) videos
  end.

(** [sort_by_views(videos)[:n]], [n] not negative. *)
Definition get_popular (videos : list Video) (n : nat) : list Video :=
  firstn n (sort_by_views videos).

Definition get_all (videos : list Video) : list Video := videos.


(** A Python slice [l[a:b]] of a list. *)
Definition slice_index (len i : Z) : Z :=
  if i <? 0 then Z.max 0 (i + len) else Z.min i len.

Definition py_slice {A} (l : list A) (a b : Z) : list A :=
  let len := Z.of_nat (List.length l) in
  let a' := slice_index len a in
  let b' := slice_index len b in
  firstn (Z.to_nat (b' - a')) (skipn (Z.to_nat a') l).

(** The paging of [render_section]. *)
Definition section_total_pages (videos : list Video) (videos_per_page : Z) : Z :=
  (Z.of_nat (List.length videos) + videos_per_page - 1) / videos_per_page.

Definition current_videos (videos : list Video) (videos_per_page current_page : Z)
    : list Video :=
  let start_idx := current_page * videos_per_page in
  let end_idx := Z.min (start_idx + videos_per_page) (Z.of_nat (List.length videos)) in
  py_slice videos start_idx end_idx.

Inductive Click := NoClick | ClickPrevious | ClickNext.

(** The page number that one run of [render_section] leaves in the session
    state: nothing is drawn for an empty list, the buttons exist only when
    there is more than one page, and a disabled button is never pressed. *)
Definition render_section_page (videos : list Video) (videos_per_page : Z)
    (current_page : Z) (c : Click) : Z :=
  match videos with
  | [] => current_page
  | _ =>
      let total_pages := section_total_pages videos videos_per_page in
      if 1 <? total_pages then
        match c with
        | ClickPrevious =>
            if current_page =? 0 then current_page else current_page - 1
        | ClickNext =>
            if total_pages - 1 <=? current_page then current_page
            else current_page + 1
        | NoClick => current_page
        end
      else current_page
  end.

(** The caption under a poster: the script, cut to 57 characters and three
    dots when it is longer than 60. *)
Definition display_script (script : string) : string :=
  if (String.length script <=? 60)%nat then script
  else substring 0 57 script ++ "...".

(** ** More notions used to state the properties *)



(** The row [v] holds the values of the record [p] in the ten columns that
    the statement names. *)
Definition carries (p : Payload) (v : Video) : Prop :=
  p_id p = Some (id v) /\ p_url p = Some (url v) /\ p_name p = Some (name v)
  /\ p_title p = Some (title v) /\ p_image p = image v /\ p_video p = video v
  /\ p_user p = user v /\ p_views p = Some (views v)
  /\ p_poster p = poster v /\ p_script p = script v.

(** The last record of a feed that the statement accepts for the id [k]. *)
Fixpoint last_accepted (feed : list Payload) (k : string) : option Payload :=
  match feed with
  | [] => None
  | p :: rest =>
      match last_accepted rest k with
      | Some q => Some q
      | None =>
          match values p with
          | Some row => if String.eqb (id (row 0 0)) k then Some p else None
          | None => None
          end
      end
  end.

(** * Properties *)

(** ** Table access *)

Lemma query_first_Some k t v :
  query_first k t = Some v -> id v = k /\ In v t.
Proof.
  unfold query_first. intros H. apply find_some in H.
  destruct H as [Hin Heq]. apply String.eqb_eq in Heq. auto.
Qed.

Lemma query_first_None k t :
  query_first k t = None <-> ~ In k (ids t).
Proof.
  unfold query_first, ids. induction t as [|v t IH]; simpl.
  - tauto.
  - destruct (String.eqb (id v) k) eqn:E.
    + apply String.eqb_eq in E. split; [discriminate | intros H; exfalso; auto].
    + apply String.eqb_neq in E. rewrite IH. tauto.
Qed.

Lemma has_id_false k t : has_id k t = false <-> ~ In k (ids t).
Proof.
  unfold has_id, ids. induction t as [|v t IH]; simpl.
  - tauto.
  - destruct (String.eqb (id v) k) eqn:E; simpl.
    + apply String.eqb_eq in E. split; [discriminate | intros H; exfalso; auto].
    + apply String.eqb_neq in E. rewrite IH. tauto.
Qed.

Lemma has_id_true k t : has_id k t = true <-> In k (ids t).
Proof.
  destruct (has_id k t) eqn:E.
  - split; auto. intros _. destruct (in_dec string_dec k (ids t)) as [H|H]; auto.
    apply has_id_false in H. congruence.
  - apply has_id_false in E. split; [discriminate | tauto].
Qed.

Lemma ids_replace_row v' t : ids (replace_row v' t) = ids t.
Proof.
  unfold ids, replace_row. rewrite map_map. apply map_ext.
  intros v. destruct (String.eqb (id v) (id v')) eqn:E; auto.
  apply String.eqb_eq in E. auto.
Qed.

Lemma length_replace_row v' t : List.length (replace_row v' t) = List.length t.
Proof. unfold replace_row. apply length_map. Qed.

Lemma query_first_replace_same v' t v :
  query_first (id v') t = Some v -> query_first (id v') (replace_row v' t) = Some v'.
Proof.
  unfold query_first, replace_row. induction t as [|x t IH]; simpl; [discriminate|].
  destruct (String.eqb (id x) (id v')) eqn:E.
  - intros _. rewrite String.eqb_refl. reflexivity.
  - rewrite E. exact IH.
Qed.

Lemma query_first_replace_other v' t k :
  k <> id v' -> query_first k (replace_row v' t) = query_first k t.
Proof.
  intros Hk. unfold query_first, replace_row. induction t as [|x t IH]; simpl; auto.
  destruct (String.eqb (id x) (id v')) eqn:E.
  - apply String.eqb_eq in E.
    assert (String.eqb (id v') k = false) as -> by (apply String.eqb_neq; congruence).
    assert (String.eqb (id x) k = false) as -> by (apply String.eqb_neq; congruence).
    exact IH.
  - rewrite IH. reflexivity.
Qed.

Lemma replace_row_In v' t x :
  In x (replace_row v' t) -> x = v' \/ (In x t /\ id x <> id v').
Proof.
  unfold replace_row. rewrite in_map_iff. intros [y [Hy Hin]].
  destruct (String.eqb (id y) (id v')) eqn:E.
  - left. auto.
  - right. subst x. apply String.eqb_neq in E. auto.
Qed.

(** ** The mapped instance *)

Lemma flush_load o v : flush o = Some v -> load v = o.
Proof.
  unfold flush, load. destruct o as [i u n t im vi us po sc vw c up]; simpl.
  destruct u, n, t; try discriminate. intros H. inversion H; subst. reflexivity.
Qed.


Lemma getattr_setattr f g x o :
  getattr f (setattr o g x) = if field_eqb f g then x else getattr f o.
Proof. destruct f, g; reflexivity. Qed.

Lemma setattr_frame o g x :
  o_id (setattr o g x) = o_id o /\ o_views (setattr o g x) = o_views o
  /\ o_created_at (setattr o g x) = o_created_at o
  /\ o_updated_at (setattr o g x) = o_updated_at o.
Proof. destruct g; simpl; auto. Qed.

Lemma apply_updates_assign payload o :
  apply_updates o (dict_exclude_unset payload)
  = fold_left (assign payload) all_fields o.
Proof.
  unfold apply_updates, dict_exclude_unset.
  generalize all_fields. intros l. revert o.
  induction l as [|f l IH]; intros o; simpl; auto.
  rewrite fold_left_app. rewrite IH. f_equal.
  unfold assign. destruct (payload f); reflexivity.
Qed.

Lemma getattr_assign payload o f g :
  getattr f (assign payload o g)
  = if field_eqb f g
    then match payload g with Some x => x | None => getattr f o end
    else getattr f o.
Proof.
  unfold assign. destruct (payload g) as [x|].
  - apply getattr_setattr.
  - destruct (field_eqb f g); reflexivity.
Qed.

Lemma getattr_apply_updates payload o f :
  getattr f (apply_updates o (dict_exclude_unset payload))
  = match payload f with Some x => x | None => getattr f o end.
Proof.
  rewrite apply_updates_assign. unfold all_fields. simpl.
  repeat rewrite getattr_assign. destruct f; reflexivity.
Qed.

Lemma apply_updates_frame o updates :
  o_id (apply_updates o updates) = o_id o
  /\ o_views (apply_updates o updates) = o_views o
  /\ o_created_at (apply_updates o updates) = o_created_at o
  /\ o_updated_at (apply_updates o updates) = o_updated_at o.
Proof.
  unfold apply_updates. revert o.
  induction updates as [|[f x] l IH]; intros o; simpl; auto.
  destruct (IH (setattr o f x)) as (H1 & H2 & H3 & H4).
  destruct (setattr_frame o f x) as (G1 & G2 & G3 & G4).
  repeat split; congruence.
Qed.

Lemma dict_exclude_unset_nil payload :
  dict_exclude_unset payload = [] <-> forall f, payload f = None.
Proof.
  unfold dict_exclude_unset, all_fields. simpl. split.
  - intros H f.
    destruct (payload Furl) eqn:E1, (payload Fname) eqn:E2,
      (payload Ftitle) eqn:E3, (payload Fimage) eqn:E4,
      (payload Fvideo) eqn:E5, (payload Fuser) eqn:E6,
      (payload Fposter) eqn:E7, (payload Fscript) eqn:E8;
      try discriminate. destruct f; assumption.
  - intros H. rewrite !H. reflexivity.
Qed.

(** ** [update_video] *)

Lemma getattr_set_updated_at f o t :
  getattr f (set_updated_at o t) = getattr f o.
Proof. destruct f; reflexivity. Qed.


(** The table after an update is the old one, or the old one with one row
    replaced by the returned row. *)
Lemma update_video_cases payload video_id dt w :
  let (r, w') := update_video payload video_id dt w in
  (table w' = table w /\ (clock w' = clock w \/ clock w' = clock w + Z.of_N dt)
   /\ forall v', r <> Ok v')
  \/ exists v v',
       r = respond_video v' /\ query_first video_id (table w) = Some v
       /\ w' = mkWorld (replace_row v' (table w)) (clock w + Z.of_N dt)
       /\ id v' = id v /\ views v' = views v /\ created_at v' = created_at v
       /\ updated_at v' = clock w + Z.of_N dt.
Proof.
  unfold update_video.
  destruct (dict_exclude_unset payload) as [|kv l] eqn:Hd.
  { left. repeat split; auto. discriminate. }
  destruct (query_first video_id (table w)) as [v|] eqn:Hq.
  2:{ left. repeat split; auto. discriminate. }
  simpl.
  match goal with |- context [flush ?o] => set (o' := o) end.
  destruct (flush o') as [v'|] eqn:Hf.
  - right. exists v, v'. pose proof (flush_load _ _ Hf) as Hl.
    destruct (apply_updates_frame (load v) (kv :: l)) as (F1 & F2 & F3 & F4).
    assert (Hid : o_id (load v') = o_id o') by (rewrite Hl; reflexivity).
    assert (Hvw : o_views (load v') = o_views o') by (rewrite Hl; reflexivity).
    assert (Hc : o_created_at (load v') = o_created_at o') by (rewrite Hl; reflexivity).
    assert (Hu : o_updated_at (load v') = o_updated_at o') by (rewrite Hl; reflexivity).
    unfold o' in Hid, Hvw, Hc, Hu. simpl in Hid, Hvw, Hc, Hu, F1, F2, F3, F4.
    repeat split; try congruence.
  - left. simpl. repeat split; auto. discriminate.
Qed.

(** A response that was checked against the response model. *)
Lemma respond_video_valid v :
  0 <= views v -> respond_video v = Ok v.
Proof.
  intros H. unfold respond_video, VideoResponse_valid.
  apply Z.leb_le in H. rewrite H. reflexivity.
Qed.

Lemma respond_video_invalid v :
  views v < 0 -> respond_video v = Unhandled.
Proof.
  intros H. unfold respond_video, VideoResponse_valid.
  apply Z.leb_gt in H. rewrite H. reflexivity.
Qed.

Lemma respond_video_Ok v v' : respond_video v = Ok v' -> v' = v /\ 0 <= views v.
Proof.
  unfold respond_video, VideoResponse_valid.
  destruct (0 <=? views v) eqn:E; [|discriminate].
  intros H. inversion H; subst v'. split; [reflexivity | apply Z.leb_le, E].
Qed.





(** C10: an update body with no keys at all is answered 400 before the id
    is looked up, so also for an id that no row has, and nothing is
    written. *)
Theorem put_video_no_keys_400 body video_id dt w :
  (forall f, body f = None) ->
  put_video body video_id dt w
  = (HTTPException 400 "No fields provided for update", w).
Proof.
  intros Hnone. unfold put_video, update_video.
  assert (dict_exclude_unset (VideoUpdate_validate body) = []) as ->.
  { apply dict_exclude_unset_nil. intros f. unfold VideoUpdate_validate.
    rewrite Hnone. reflexivity. }
  reflexivity.
Qed.

(** C10 at an id that is not in the table. *)
Lemma put_video_no_keys_400_witness :
  let w := mkWorld [mkVideo "a" "u" "n" "t" None None None None None 0 1 1] 1 in
  query_first "zz" (table w) = None
  /\ (forall f : field, (fun _ : field => @None (option string)) f = None)
  /\ put_video (fun _ => None) "zz" 3 w
     = (HTTPException 400 "No fields provided for update", w).
Proof.
  intros w. split; [reflexivity|]. split; [reflexivity|].
  apply (put_video_no_keys_400 (fun _ => None) "zz" 3%N w). reflexivity.
Defined.

(** ** [get_video] *)

Lemma get_video_missing video_id dt w :
  query_first video_id (table w) = None ->
  get_video video_id dt w = (HTTPException 404 "Video not found", w).
Proof. intros H. unfold get_video. rewrite H. reflexivity. Qed.

Lemma get_video_found video_id dt w v :
  query_first video_id (table w) = Some v ->
  get_video video_id dt w
  = (respond_video (viewed v 1 (clock w + Z.of_N dt)),
     mkWorld (replace_row (viewed v 1 (clock w + Z.of_N dt)) (table w))
             (clock w + Z.of_N dt)).
Proof. intros H. unfold get_video. rewrite H. reflexivity. Qed.









(** ** Ordering and paging *)

Section Ordering.
Context {A : Type} (le : A -> A -> bool).
Hypothesis le_total : forall a b, le a b = true \/ le b a = true.

Lemma insert_sorted_HdRel a x l :
  le a x = true ->
  HdRel (fun a b => le a b = true) a l ->
  HdRel (fun a b => le a b = true) a (insert_sorted le x l).
Proof.
  intros Hax Hl. destruct l as [|y l]; simpl.
  - constructor. exact Hax.
  - destruct (le x y); constructor; auto. inversion Hl; auto.
Qed.

Lemma insert_sorted_Sorted x l :
  Sorted (fun a b => le a b = true) l ->
  Sorted (fun a b => le a b = true) (insert_sorted le x l).
Proof.
  induction l as [|y l IH]; intros Hs; simpl.
  - repeat constructor.
  - destruct (le x y) eqn:E.
    + constructor; auto.
    + inversion Hs as [|? ? Hs' Hd]; subst. constructor; auto.
      apply insert_sorted_HdRel; auto.
      destruct (le_total x y) as [H|H]; [congruence | exact H].
Qed.

Lemma order_by_Sorted l : Sorted (fun a b => le a b = true) (order_by le l).
Proof.
  induction l as [|x l IH]; simpl.
  - constructor.
  - apply insert_sorted_Sorted. exact IH.
Qed.

End Ordering.

Lemma insert_sorted_Permutation {A} (le : A -> A -> bool) x l :
  Permutation (x :: l) (insert_sorted le x l).
Proof.
  induction l as [|y l IH]; simpl; auto.
  destruct (le x y); auto.
  rewrite perm_swap. apply perm_skip. exact IH.
Qed.

Lemma order_by_Permutation {A} (le : A -> A -> bool) l :
  Permutation l (order_by le l).
Proof.
  induction l as [|x l IH]; simpl; auto.
  rewrite <- insert_sorted_Permutation. apply perm_skip. exact IH.
Qed.

Lemma order_by_length {A} (le : A -> A -> bool) l :
  List.length (order_by le l) = List.length l.
Proof. symmetry. apply Permutation_length. apply order_by_Permutation. Qed.

Lemma Sorted_impl {A} (R R' : A -> A -> Prop) l :
  (forall a b, R a b -> R' a b) -> Sorted R l -> Sorted R' l.
Proof.
  intros Himp Hs. induction Hs as [|x l Hs IH Hd]; constructor; auto.
  destruct Hd; constructor; auto.
Qed.


Lemma Sorted_firstn {A} (R : A -> A -> Prop) n : forall l,
  Sorted R l -> Sorted R (firstn n l).
Proof.
  induction n as [|n IH]; intros l Hs; simpl; [constructor|].
  destruct l as [|x l]; [constructor|].
  inversion Hs as [|? ? Hs' Hd]; subst. constructor; auto.
  destruct n; simpl; [constructor|].
  destruct l; [constructor|]. inversion Hd; subst. constructor. auto.
Qed.



Lemma offset_limit_length {A} (pg sz : Z) (l : list A) :
  1 <= pg -> 1 <= sz ->
  Z.of_nat (List.length (offset_limit ((pg - 1) * sz) sz l))
  = Z.min sz (Z.max 0 (Z.of_nat (List.length l) - (pg - 1) * sz)).
Proof.
  intros Hp Hs. unfold offset_limit. rewrite length_firstn, length_skipn.
  assert (0 <= (pg - 1) * sz) by nia. lia.
Qed.

Lemma total_pages_ceil (n sz : Z) :
  1 <= sz ->
  ((n + sz - 1) / sz - 1) * sz < n <= (n + sz - 1) / sz * sz.
Proof.
  intros Hs.
  pose proof (Z.div_mod (n + sz - 1) sz ltac:(lia)) as Hd.
  pose proof (Z.mod_pos_bound (n + sz - 1) sz ltac:(lia)) as Hb.
  nia.
Qed.

(** ** [list_videos] *)

Lemma respond_page_Ok p p' : respond_page p = OkPage p' -> p' = p.
Proof.
  unfold respond_page. destruct (forallb VideoResponse_valid (videos p));
    [|discriminate].
  intros H. inversion H. reflexivity.
Qed.





(** ** [create_video] *)

Lemma string_length_append s1 s2 :
  String.length (s1 ++ s2) = (String.length s1 + String.length s2)%nat.
Proof. induction s1 as [|c s1 IH]; simpl; auto. Qed.

Lemma all_hex_append s1 s2 :
  all_hex (s1 ++ s2) = all_hex s1 && all_hex s2.
Proof.
  induction s1 as [|c s1 IH]; simpl; auto.
  rewrite IH. apply andb_assoc.
Qed.

Lemma hex_digits_length n : forall x, String.length (hex_digits n x) = n.
Proof.
  induction n as [|n IH]; intros x; simpl; auto.
  rewrite string_length_append, IH. simpl. lia.
Qed.

Lemma is_hex_hex_digit d : 0 <= d < 16 -> is_hex (hex_digit d) = true.
Proof.
  intros Hd. unfold is_hex, hex_digit.
  destruct (d <? 10) eqn:E.
  - apply Z.ltb_lt in E. rewrite nat_ascii_embedding by lia.
    apply orb_true_iff. left. apply andb_true_iff.
    split; apply Nat.leb_le; lia.
  - apply Z.ltb_ge in E. rewrite nat_ascii_embedding by lia.
    apply orb_true_iff. right. apply andb_true_iff.
    split; apply Nat.leb_le; lia.
Qed.

Lemma hex_digits_all_hex n : forall x, all_hex (hex_digits n x) = true.
Proof.
  induction n as [|n IH]; intros x; simpl; auto.
  rewrite all_hex_append, IH. simpl.
  rewrite is_hex_hex_digit; auto.
  apply Z.mod_pos_bound. lia.
Qed.

(** The number behind the id fits 128 bits, so its ['%032x'] rendering is
    its 32 low digits. *)
Lemma uuid4_int_range entropy : 0 <= uuid4_int entropy < 2 ^ 128.
Proof.
  unfold uuid4_int.
  set (i := Z.of_N entropy mod 2 ^ 128).
  assert (Hi : 0 <= i < 2 ^ 128) by (apply Z.mod_pos_bound; lia).
  rewrite <- !Z.ldiff_land.
  set (a := Z.ldiff i (Z.shiftl 49152 48)).
  assert (Ha : 0 <= a < 2 ^ 128).
  { unfold a. rewrite <- (Z2N.id i) by lia.
    change (Z.shiftl 49152 48) with (Z.of_N (N.shiftl 49152 48)).
    rewrite <- N2Z.inj_ldiff.
    pose proof (N.ldiff_le_l (Z.to_N i) (N.shiftl 49152 48)). lia. }
  set (b := Z.lor a (Z.shiftl 32768 48)).
  assert (Hlor : forall x y, 0 <= x < 2 ^ 128 -> 0 <= y < 2 ^ 128 ->
                             0 <= Z.lor x y < 2 ^ 128).
  { intros x y Hx Hy. split; [apply Z.lor_nonneg; lia|].
    destruct (Z.eq_dec (Z.lor x y) 0) as [E|E]; [rewrite E; lia|].
    assert (0 <= Z.lor x y) by (apply Z.lor_nonneg; lia).
    apply Z.log2_lt_pow2; [lia|].
    rewrite Z.log2_lor by lia.
    destruct (Z.eq_dec x 0) as [Ex|Ex]; destruct (Z.eq_dec y 0) as [Ey|Ey];
      subst; simpl;
      repeat match goal with
      | |- context [Z.log2 ?z] =>
          lazymatch z with
          | 0 => fail
          | _ => assert (Z.log2 z < 128) by (apply Z.log2_lt_pow2; lia);
                 generalize dependent (Z.log2 z); intros
          end
      end; lia. }
  assert (Hb : 0 <= b < 2 ^ 128).
  { unfold b. apply Hlor; [exact Ha|]. simpl. lia. }
  set (c := Z.ldiff b (Z.shiftl 61440 64)).
  assert (Hc : 0 <= c < 2 ^ 128).
  { unfold c. rewrite <- (Z2N.id b) by lia.
    change (Z.shiftl 61440 64) with (Z.of_N (N.shiftl 61440 64)).
    rewrite <- N2Z.inj_ldiff.
    pose proof (N.ldiff_le_l (Z.to_N b) (N.shiftl 61440 64)). lia. }
  apply Hlor; [exact Hc|]. simpl. lia.
Qed.

Lemma uuid4_hex_shape entropy :
  String.length (uuid4_hex entropy) = 32%nat /\ all_hex (uuid4_hex entropy) = true.
Proof.
  unfold uuid4_hex. split; [apply hex_digits_length | apply hex_digits_all_hex].
Qed.

(** The two outcomes of an insert through the API. *)
Lemma create_video_cases payload entropy dt1 dt2 w :
  let c := clock w + Z.of_N dt1 in
  let u := c + Z.of_N dt2 in
  let v := mkVideo (uuid4_hex entropy) (c_url payload) (c_name payload)
                   (c_title payload) (c_image payload) (c_video payload)
                   (c_user payload) (c_poster payload) (c_script payload)
                   0 c u in
  (In (uuid4_hex entropy) (ids (table w))
   /\ create_video payload entropy dt1 dt2 w = (Unhandled, mkWorld (table w) u))
  \/ (~ In (uuid4_hex entropy) (ids (table w))
      /\ create_video payload entropy dt1 dt2 w
         = (Created v, mkWorld (table w ++ [v]) u)).
Proof.
  intros c u v. unfold create_video. simpl.
  destruct (has_id (uuid4_hex entropy) (table w)) eqn:E.
  - left. apply has_id_true in E. auto.
  - right. apply has_id_false in E. auto.
Qed.

(** C5 (as amended): a create request that supplies url, name and title as
    strings generates a 32-hex-character id; unless that id is already a
    key (the insert then fails and the table is unchanged), the row is
    appended and returned with 201, its id distinct from the existing
    ids, views 0, the supplied strings, the optional columns absent unless
    supplied, and created_at and updated_at read from the clock one after
    the other: created_at <= updated_at, with equality when the clock
    does not advance between the two reads. *)
Theorem post_video_created body entropy dt1 dt2 w u n t :
  body Furl = Some (Some u) -> body Fname = Some (Some n) ->
  body Ftitle = Some (Some t) ->
  String.length (uuid4_hex entropy) = 32%nat
  /\ all_hex (uuid4_hex entropy) = true
  /\ ((In (uuid4_hex entropy) (ids (table w))
       /\ fst (post_video body entropy dt1 dt2 w) = Unhandled
       /\ table (snd (post_video body entropy dt1 dt2 w)) = table w)
      \/ exists v,
           post_video body entropy dt1 dt2 w
           = (Created v, mkWorld (table w ++ [v])
                                 (clock w + Z.of_N dt1 + Z.of_N dt2))
           /\ id v = uuid4_hex entropy
           /\ ~ In (id v) (ids (table w))
           /\ views v = 0
           /\ created_at v = clock w + Z.of_N dt1
           /\ updated_at v = created_at v + Z.of_N dt2
           /\ created_at v <= updated_at v
           /\ (dt2 = 0%N -> created_at v = updated_at v)
           /\ url v = u /\ name v = n /\ title v = t
           /\ forall f, nullable f = true ->
                        column f v = match body f with
                                     | Some x => x
                                     | None => None
                                     end).
Proof.
  intros Hu Hn Ht.
  destruct (uuid4_hex_shape entropy) as [Hlen Hhex].
  split; [exact Hlen|]. split; [exact Hhex|].
  unfold post_video, VideoCreate_validate. rewrite Hu, Hn, Ht.
  match goal with
  | |- context [create_video ?p _ _ _ _] => set (payload := p)
  end.
  destruct (create_video_cases payload entropy dt1 dt2 w) as [[Hin Hc]|[Hnin Hc]].
  - left. rewrite Hc. simpl. auto.
  - right. eexists. split; [exact Hc|]. simpl.
    repeat split; auto; try lia.
    intros f Hf. destruct f; try discriminate; reflexivity.
Qed.

(** C5 on an empty table. *)
Lemma post_video_created_witness :
  let body := fun f => match f with
                       | Furl => Some (Some "u") | Fname => Some (Some "n")
                       | Ftitle => Some (Some "t") | _ => None
                       end in
  String.length (uuid4_hex 7) = 32%nat
  /\ exists v, fst (post_video body 7 1 0 (mkWorld [] 10)) = Created v
               /\ views v = 0 /\ created_at v = updated_at v
               /\ image v = None.
Proof.
  intros body.
  destruct (post_video_created body 7 1 0 (mkWorld [] 10) "u" "n" "t"
              eq_refl eq_refl eq_refl) as (Hlen & _ & [[Hin _]|[v Hv]]).
  - destruct Hin.
  - split; [exact Hlen|]. exists v.
    destruct Hv as (H1 & _ & _ & H4 & _ & _ & _ & H8 & _ & _ & _ & H12).
    rewrite H1. repeat split; auto.
    exact (H12 Fimage eq_refl).
Defined.

(** C5 as stated fails: when the clock advances between the two column
    defaults, the created row has created_at before updated_at. *)
Lemma create_video_stamps_differ :
  exists v w',
    create_video (mkVideoCreate "u" "n" "t" None None None None None) 7 1 1
                 (mkWorld [] 10) = (Created v, w')
    /\ created_at v = 11 /\ updated_at v = 12
    /\ created_at v <> updated_at v.
Proof.
  eexists; eexists. split; [reflexivity|]. simpl. repeat split; lia.
Qed.

(** ** Ingestion: one statement *)

Lemma values_Some p row :
  values p = Some row ->
  exists i vw,
    p_id p = Some i /\ p_views p = Some vw
    /\ forall c u, id (row c u) = i /\ views (row c u) = vw
                   /\ created_at (row c u) = c /\ updated_at (row c u) = u.
Proof.
  unfold values.
  destruct (p_id p) as [i|], (p_url p), (p_name p), (p_title p),
    (p_views p) as [vw|]; try discriminate.
  intros H. inversion H; subst. exists i, vw. repeat split; reflexivity.
Qed.

Lemma accepted_true e p :
  accepted e p = true <-> ts_default e = true /\ exists row, values p = Some row.
Proof.
  unfold accepted. destruct (values p) as [row|].
  - split; [intros H; split; eauto | tauto].
  - split; [discriminate | intros [_ [row H]]; discriminate].
Qed.

Lemma execute_refused e p t :
  execute (column_default e) p t = None <-> accepted e p = false.
Proof.
  unfold execute, accepted, column_default.
  destruct (values p) as [row|]; [|tauto].
  destruct (ts_default e); [|tauto].
  destruct (query_first (id (row zero_date zero_date)) t); split; discriminate.
Qed.

Lemma upsert_record_eq e total idx p w log :
  upsert_record e total idx p (w, log)
  = (mkWorld (upsert_table (column_default e) p (table w))
             (clock w + Z.of_N (delay e idx)),
     (log ++ [log_line e total idx p])%list).
Proof.
  unfold upsert_record, upsert_table, log_line, utcnow. simpl.
  destruct (execute _ p (table w)) as [t'|] eqn:E.
  - assert (accepted e p = true) as ->; [|reflexivity].
    destruct (accepted e p) eqn:A; auto.
    apply execute_refused with (t := table w) in A. congruence.
  - apply execute_refused in E. rewrite E. reflexivity.
Qed.

(** An iteration on an object is the iteration on its record; an element
    that is not an object ends the loop. *)
Lemma upsert_one_Object e total idx p st :
  upsert_one e total idx (Object p) st = Some (upsert_record e total idx p st).
Proof.
  unfold upsert_one, upsert_record. destruct st as [w log]. simpl.
  assert (Hp : mkPayload (p_id p) (p_url p) (p_name p) (p_title p)
                         (p_image p) (p_video p) (p_user p) (p_views p)
                         (p_poster p) (p_script p) = p)
    by (destruct p; reflexivity).
  rewrite Hp. destruct (execute _ p _); reflexivity.
Qed.

Lemma upsert_one_NotObject e total idx st :
  upsert_one e total idx NotObject st = None.
Proof. destruct st. reflexivity. Qed.

(** The loop runs over the records before the first element that is not
    an object, and raises exactly when there is such an element. *)
Lemma upsert_loop_records e total feed : forall idx st,
  upsert_loop e total idx feed st
  = (loop_records e total idx (records feed) st, aborts feed).
Proof.
  induction feed as [|[p|] feed IH]; intros idx st.
  - reflexivity.
  - cbn [upsert_loop records aborts loop_records].
    rewrite upsert_one_Object. apply IH.
  - cbn [upsert_loop]. rewrite upsert_one_NotObject. reflexivity.
Qed.

Lemma aborts_false feed : aborts feed = false -> feed = map Object (records feed).
Proof.
  induction feed as [|[p|] feed IH]; simpl; intros H.
  - reflexivity.
  - f_equal. apply IH, H.
  - discriminate.
Qed.

Lemma records_map_Object ps : records (map Object ps) = ps.
Proof. induction ps as [|p ps IH]; simpl; [|rewrite IH]; reflexivity. Qed.

Lemma aborts_map_Object ps : aborts (map Object ps) = false.
Proof. induction ps as [|p ps IH]; simpl; auto. Qed.

Lemma records_In feed p : In p (records feed) -> In (Object p) feed.
Proof.
  induction feed as [|[q|] feed IH]; simpl; try tauto.
  intros [H|H]; [left; congruence | right; auto].
Qed.

Lemma length_records feed : (List.length (records feed) <= List.length feed)%nat.
Proof.
  induction feed as [|[q|] feed IH]; simpl; lia.
Qed.

Lemma unique_row t x y :
  NoDup (ids t) -> In x t -> In y t -> id x = id y -> x = y.
Proof.
  unfold ids. induction t as [|z t IH]; simpl; intros Hnd Hx Hy Hid; [tauto|].
  inversion Hnd as [|? ? Hnin Hnd']; subst.
  destruct Hx as [Hx|Hx], Hy as [Hy|Hy]; subst; auto.
  - exfalso. apply Hnin. rewrite Hid. apply in_map. exact Hy.
  - exfalso. apply Hnin. rewrite <- Hid. apply in_map. exact Hx.
Qed.

Lemma id_rewrite_row p v : id (rewrite_row p v) = id v.
Proof.
  unfold rewrite_row. destruct (values p) as [row|] eqn:E; auto.
  destruct (String.eqb (id v) (id (row 0 0))) eqn:Eq; auto.
  apply String.eqb_eq in Eq.
  destruct (values_Some _ _ E) as (i & vw & _ & _ & H).
  destruct (H (created_at v) (updated_at v)) as (H1 & _).
  destruct (H 0 0) as (H2 & _). congruence.
Qed.

Lemma stamps_rewrite_row p v :
  created_at (rewrite_row p v) = created_at v
  /\ updated_at (rewrite_row p v) = updated_at v.
Proof.
  unfold rewrite_row. destruct (values p) as [row|] eqn:E; auto.
  destruct (String.eqb (id v) (id (row 0 0))); auto.
  destruct (values_Some _ _ E) as (i & vw & _ & _ & H).
  destruct (H (created_at v) (updated_at v)) as (_ & _ & H3 & H4). auto.
Qed.

Lemma ids_map_rewrite_row p t : ids (map (rewrite_row p) t) = ids t.
Proof.
  unfold ids. rewrite map_map. apply map_ext. intros v. apply id_rewrite_row.
Qed.

Lemma upsert_table_refused dflt p t :
  values p = None \/ dflt = None -> upsert_table dflt p t = t.
Proof.
  unfold upsert_table, execute. intros [H|H]; rewrite H; auto.
  destruct (values p); reflexivity.
Qed.

Lemma upsert_table_new d p row t :
  values p = Some row -> ~ In (id (row 0 0)) (ids t) ->
  upsert_table (Some d) p t = (t ++ [row d d])%list.
Proof.
  intros Hv Hnin. unfold upsert_table, execute. rewrite Hv.
  destruct (values_Some _ _ Hv) as (i & vw & _ & _ & H).
  destruct (H d d) as (H1 & _). destruct (H 0 0) as (H2 & _).
  assert (query_first (id (row d d)) t = None) as ->; [|reflexivity].
  apply query_first_None. congruence.
Qed.

Lemma upsert_table_existing d p row t :
  NoDup (ids t) ->
  values p = Some row -> In (id (row 0 0)) (ids t) ->
  upsert_table (Some d) p t = map (rewrite_row p) t.
Proof.
  intros Hnd Hv Hin. unfold upsert_table, execute. rewrite Hv.
  destruct (values_Some _ _ Hv) as (i & vw & _ & _ & H).
  destruct (H d d) as (H1 & _). destruct (H 0 0) as (H2 & _).
  destruct (query_first (id (row d d)) t) as [old|] eqn:Hq.
  2:{ apply query_first_None in Hq. exfalso. apply Hq. congruence. }
  destruct (query_first_Some _ _ _ Hq) as [Hold Hoin].
  unfold replace_row. apply map_ext_in. intros x Hx.
  unfold rewrite_row. rewrite Hv.
  destruct (H (created_at old) (updated_at old)) as (H3 & _).
  rewrite H3, H2.
  destruct (String.eqb (id x) i) eqn:Eq; auto.
  apply String.eqb_eq in Eq.
  assert (x = old) by (apply (unique_row t); auto; congruence).
  subst x. reflexivity.
Qed.

Lemma rewrite_row_other p row v :
  values p = Some row -> id v <> id (row 0 0) -> rewrite_row p v = v.
Proof.
  intros Hv Hne. unfold rewrite_row. rewrite Hv.
  apply String.eqb_neq in Hne. rewrite Hne. reflexivity.
Qed.

Lemma rewrite_row_same p row v :
  values p = Some row -> id v = id (row 0 0) ->
  rewrite_row p v = row (created_at v) (updated_at v).
Proof.
  intros Hv He. unfold rewrite_row. rewrite Hv.
  apply String.eqb_eq in He. rewrite He. reflexivity.
Qed.

Lemma rewrite_row_none p v : values p = None -> rewrite_row p v = v.
Proof. intros Hv. unfold rewrite_row. rewrite Hv. reflexivity. Qed.

Lemma rewrite_row_idem p v : rewrite_row p (rewrite_row p v) = rewrite_row p v.
Proof.
  destruct (values p) as [row|] eqn:Hv.
  2:{ rewrite !rewrite_row_none; auto. }
  destruct (string_dec (id v) (id (row 0 0))) as [E|E].
  - rewrite (rewrite_row_same p row (rewrite_row p v)); auto.
    + destruct (stamps_rewrite_row p v) as [-> ->].
      symmetry. apply rewrite_row_same; auto.
    + rewrite id_rewrite_row. exact E.
  - rewrite (rewrite_row_other p row v); auto.
    apply rewrite_row_other with (row := row); auto.
Qed.

Lemma overwrite_frame feed : forall v,
  id (overwrite feed v) = id v
  /\ created_at (overwrite feed v) = created_at v
  /\ updated_at (overwrite feed v) = updated_at v.
Proof.
  unfold overwrite. induction feed as [|p feed IH]; intros v; simpl; auto.
  destruct (IH (rewrite_row p v)) as (H1 & H2 & H3).
  destruct (stamps_rewrite_row p v) as (G2 & G3).
  pose proof (id_rewrite_row p v). repeat split; congruence.
Qed.

Lemma overwrite_snoc feed p v :
  overwrite (feed ++ [p]) v = rewrite_row p (overwrite feed v).
Proof. unfold overwrite. rewrite fold_left_app. reflexivity. Qed.

(** One accepted or refused statement on a table whose ids are distinct. *)
Lemma upsert_table_step d p t :
  NoDup (ids t) ->
  let t' := upsert_table (Some d) p t in
  NoDup (ids t')
  /\ incl (ids t) (ids t')
  /\ (forall row, values p = Some row -> In (id (row 0 0)) (ids t'))
  /\ (forall r, In r t' -> rewrite_row p r = r)
  /\ (forall r row, In r t' -> values p = Some row ->
                    id r <> id (row 0 0) -> In r t)
  /\ (forall k, In k (ids t') ->
                In k (ids t) \/ exists row, values p = Some row /\ id (row 0 0) = k).
Proof.
  intros Hnd t'. unfold t'. clear t'.
  destruct (values p) as [row|] eqn:Hv.
  2:{ rewrite upsert_table_refused by auto.
      repeat split; auto using incl_refl; try discriminate.
      intros r _. apply rewrite_row_none. exact Hv. }
  destruct (values_Some _ _ Hv) as (i & vw & _ & _ & H).
  destruct (in_dec string_dec (id (row 0 0)) (ids t)) as [Hin|Hnin].
  - rewrite (upsert_table_existing d p row) by auto.
    rewrite ids_map_rewrite_row.
    repeat split; auto using incl_refl.
    + intros row' Hr. inversion Hr; subst. exact Hin.
    + intros r Hr. apply in_map_iff in Hr. destruct Hr as [x [Hx _]].
      subst r. apply rewrite_row_idem.
    + intros r row' Hr Hr' Hne. inversion Hr'; subst row'.
      apply in_map_iff in Hr. destruct Hr as [x [Hx Hxin]].
      assert (id x <> id (row 0 0)).
      { rewrite <- Hx in Hne. rewrite id_rewrite_row in Hne. exact Hne. }
      rewrite (rewrite_row_other p row x) in Hx by auto. subst r. exact Hxin.
  - rewrite (upsert_table_new d p row) by auto.
    assert (Hids : ids (t ++ [row d d]) = (ids t ++ [id (row 0 0)])%list).
    { unfold ids. rewrite map_app. simpl.
      destruct (H d d) as (-> & _). destruct (H 0 0) as (-> & _). reflexivity. }
    rewrite Hids.
    repeat split.
    + apply NoDup_app; auto.
      * constructor; [simpl; tauto | constructor].
      * intros x Hx [Hy|[]]. congruence.
    + apply incl_appl, incl_refl.
    + intros row' Hr. inversion Hr; subst. apply in_or_app. right. simpl. auto.
    + intros r Hr. apply in_app_or in Hr. destruct Hr as [Hr|[Hr|[]]].
      * apply rewrite_row_other with (row := row); auto.
        intros E. apply Hnin. rewrite <- E. apply in_map. exact Hr.
      * subst r. rewrite (rewrite_row_same p row); auto.
        -- destruct (H d d) as (_ & _ & -> & ->). reflexivity.
        -- destruct (H d d) as (-> & _). destruct (H 0 0) as (-> & _). reflexivity.
    + intros r row' Hr Hr' Hne. inversion Hr'; subst row'.
      apply in_app_or in Hr. destruct Hr as [Hr|[Hr|[]]]; auto.
      exfalso. apply Hne. subst r.
      destruct (H d d) as (-> & _). destruct (H 0 0) as (-> & _). reflexivity.
    + intros k Hk. apply in_app_or in Hk. destruct Hk as [Hk|[Hk|[]]]; auto.
      right. exists row. auto.
Qed.

(** ** Ingestion: the loop *)

Lemma loop_records_app e total l1 : forall idx l2 st,
  loop_records e total idx (l1 ++ l2) st
  = loop_records e total (idx + List.length l1) l2 (loop_records e total idx l1 st).
Proof.
  induction l1 as [|p l1 IH]; intros idx l2 st; simpl.
  - rewrite Nat.add_0_r. reflexivity.
  - rewrite IH. f_equal. lia.
Qed.


Lemma loop_records_log e total feed : forall idx w log,
  exists ext,
    snd (loop_records e total idx feed (w, log)) = (log ++ ext)%list
    /\ List.length ext = List.length feed
    /\ forall i p, nth_error feed i = Some p ->
                   nth_error ext i = Some (log_line e total (idx + i) p).
Proof.
  induction feed as [|p feed IH]; intros idx w log; cbn [loop_records].
  - exists []. simpl. rewrite app_nil_r. repeat split; auto.
    intros i q H. destruct i; discriminate.
  - rewrite upsert_record_eq.
    match goal with
    | |- context [loop_records e total (S idx) feed (?w1, ?l1)] =>
        destruct (IH (S idx) w1 l1) as (ext & H1 & H2 & H3)
    end.
    exists (log_line e total idx p :: ext).
    split; [rewrite H1, <- app_assoc; reflexivity|].
    split; [simpl; congruence|].
    intros i q Hq. destruct i as [|i]; simpl in *.
    + inversion Hq; subst. rewrite Nat.add_0_r. reflexivity.
    + rewrite (H3 i q Hq). f_equal. f_equal. lia.
Qed.

Lemma loop_records_no_default e total feed : forall idx w log,
  ts_default e = false ->
  table (fst (loop_records e total idx feed (w, log))) = table w.
Proof.
  induction feed as [|p feed IH]; intros idx w log Hd; cbn [loop_records]; auto.
  rewrite upsert_record_eq. rewrite IH by exact Hd. simpl.
  apply upsert_table_refused. right. unfold column_default. rewrite Hd.
  reflexivity.
Qed.

(** After the loop over a feed, every accepted id has a row, the ids are
    distinct, no id comes from elsewhere, and every row already carries
    what the feed would write to it. *)
Lemma loop_records_saturated e total feed :
  ts_default e = true ->
  forall idx w log,
    NoDup (ids (table w)) ->
    let T := table (fst (loop_records e total idx feed (w, log))) in
    NoDup (ids T)
    /\ incl (ids (table w)) (ids T)
    /\ (forall p row, In p feed -> values p = Some row -> In (id (row 0 0)) (ids T))
    /\ (forall r, In r T -> overwrite feed r = r)
    /\ (forall k, In k (ids T) ->
          In k (ids (table w))
          \/ exists p row, In p feed /\ values p = Some row /\ id (row 0 0) = k).
Proof.
  intros Hd. induction feed as [|p feed IH] using rev_ind; intros idx w log Hnd.
  - simpl. repeat split; auto using incl_refl. intros p row [].
  - cbv zeta. rewrite loop_records_app. cbn [loop_records].
    specialize (IH idx w log Hnd). cbv zeta in IH.
    destruct (loop_records e total idx feed (w, log)) as [w1 log1].
    simpl fst in IH. destruct IH as (I1 & I2 & I3 & I4 & I5).
    rewrite upsert_record_eq. simpl fst. simpl table.
    unfold column_default. rewrite Hd.
    set (d := zero_date).
    destruct (upsert_table_step d p (table w1) I1) as (S1 & S2 & S3 & S4 & S5 & S6).
    split; [exact S1|]. split; [eapply incl_tran; eauto|].
    split; [|split].
    + intros q row Hq Hv. apply in_app_or in Hq. destruct Hq as [Hq|[Hq|[]]].
      * apply S2. eapply I3; eauto.
      * subst q. apply S3. exact Hv.
    + intros r Hr. rewrite overwrite_snoc.
      destruct (values p) as [row|] eqn:Hv.
      2:{ rewrite rewrite_row_none by exact Hv. apply I4.
          rewrite upsert_table_refused in Hr by auto. exact Hr. }
      destruct (string_dec (id r) (id (row 0 0))) as [E|E].
      * destruct (overwrite_frame feed r) as (F1 & F2 & F3).
        rewrite (rewrite_row_same p row) by congruence.
        rewrite F2, F3.
        rewrite <- (rewrite_row_same p row r) by first [exact Hv | exact E].
        apply S4. exact Hr.
      * rewrite I4 by (eapply S5; eauto). apply S4. exact Hr.
    + intros k Hk. destruct (S6 k Hk) as [H|[row [Hv Hk']]].
      * destruct (I5 k H) as [H'|(q & row & Hq & Hv & Hk')]; auto.
        right. exists q, row. split; [apply in_or_app; auto | auto].
      * right. exists p, row. split; [apply in_or_app; simpl; auto | auto].
Qed.

(** The loop over a feed whose accepted ids all have rows rewrites those
    rows in place. *)
Lemma loop_records_existing e total feed :
  ts_default e = true ->
  forall idx w log,
    NoDup (ids (table w)) ->
    (forall p row, In p feed -> values p = Some row ->
                   In (id (row 0 0)) (ids (table w))) ->
    table (fst (loop_records e total idx feed (w, log)))
    = map (overwrite feed) (table w).
Proof.
  intros Hd. induction feed as [|p feed IH]; intros idx w log Hnd Hin.
  - simpl. symmetry. apply map_id.
  - cbn [loop_records]. rewrite upsert_record_eq.
    unfold column_default. rewrite Hd.
    set (d := zero_date).
    destruct (values p) as [row|] eqn:Hv.
    + rewrite (upsert_table_existing d p row); auto.
      2:{ apply (Hin p row); simpl; auto. }
      rewrite IH; simpl table.
      * rewrite map_map. reflexivity.
      * rewrite ids_map_rewrite_row. exact Hnd.
      * intros q row' Hq Hv'. rewrite ids_map_rewrite_row.
        apply (Hin q row'); simpl; auto.
    + rewrite upsert_table_refused by auto.
      rewrite IH; simpl table; auto.
      * apply map_ext. intros v. unfold overwrite. simpl.
        rewrite rewrite_row_none by exact Hv. reflexivity.
      * intros q row' Hq Hv'. apply (Hin q row'); simpl; auto.
Qed.

(** The table that a run leaves. *)
Lemma main_table e feed w :
  table (snd (main e feed w))
  = if commit_ok e && negb (aborts feed)
    then table (fst (loop_records e (List.length feed) 1 (records feed) (w, [])))
    else table w.
Proof.
  unfold main, upsert_videos. destruct feed as [|x feed].
  - simpl. destruct (commit_ok e); reflexivity.
  - rewrite upsert_loop_records.
    destruct (loop_records e (List.length (x :: feed)) 1 (records (x :: feed))
                           (w, [])) as [w1 log].
    destruct (aborts (x :: feed)), (commit_ok e); reflexivity.
Qed.


(** C6: on a table whose ids are distinct, a second run over the same
    feed, right after a run that committed, leaves the table exactly as
    the first run left it. *)
Theorem main_twice e1 e2 feed w :
  NoDup (ids (table w)) ->
  ts_default e2 = ts_default e1 ->
  commit_ok e1 = true ->
  table (snd (main e2 feed (snd (main e1 feed w))))
  = table (snd (main e1 feed w)).
Proof.
  intros Hnd Hts Hc1.
  rewrite (main_table e2).
  destruct (commit_ok e2 && negb (aborts feed)) eqn:E2; [|reflexivity].
  apply andb_true_iff in E2. destruct E2 as [_ Hab].
  set (w1 := snd (main e1 feed w)).
  assert (Ht1 : table w1
                = table (fst (loop_records e1 (List.length feed) 1
                                           (records feed) (w, [])))).
  { unfold w1. rewrite main_table, Hc1, Hab. reflexivity. }
  destruct (ts_default e1) eqn:Hd.
  - destruct (loop_records_saturated e1 (List.length feed) (records feed) Hd
                                     1 w [] Hnd)
      as (S1 & _ & S3 & S4 & _).
    rewrite <- Ht1 in S1, S3, S4.
    rewrite loop_records_existing; auto.
    rewrite <- (map_id (table w1)) at 2.
    apply map_ext_in. exact S4.
  - apply loop_records_no_default. exact Hts.
Qed.

(** C6 on a feed of three records, one of them refused and two with the
    same id. *)
Lemma main_twice_witness :
  let e1 := mkEnv true (fun _ => 1%N) true in
  let e2 := mkEnv true (fun _ => 3%N) true in
  let feed :=
    [Object (mkPayload (Some "a") (Some "u1") (Some "n") (Some "t") None None
                       None (Some 4) None None);
     Object (mkPayload (Some "b") None (Some "n") (Some "t") None None None
                       (Some 1) None None);
     Object (mkPayload (Some "a") (Some "u2") (Some "n") (Some "t") None None
                       None (Some 7) None None)] in
  let w := mkWorld [mkVideo "c" "u" "n" "t" None None None None None 2 0 0] 0 in
  table (snd (main e2 feed (snd (main e1 feed w))))
  = table (snd (main e1 feed w)).
Proof.
  intros e1 e2 feed w. apply (main_twice e1 e2 feed w).
  - simpl. constructor; [simpl; tauto | constructor].
  - reflexivity.
  - reflexivity.
Defined.

Lemma accepted_id e p k :
  (accepted e p = true /\ p_id p = Some k)
  <-> (ts_default e = true /\ exists row, values p = Some row /\ id (row 0 0) = k).
Proof.
  rewrite accepted_true. split.
  - intros [[Hd [row Hv]] Hk]. split; auto. exists row. split; auto.
    destruct (values_Some _ _ Hv) as (i & vw & Hi & _ & H).
    destruct (H 0 0) as (-> & _). congruence.
  - intros [Hd [row [Hv Hk]]]. split; eauto.
    destruct (values_Some _ _ Hv) as (i & vw & Hi & _ & H).
    destruct (H 0 0) as (Hid & _). congruence.
Qed.

(** ** The data-model invariants *)










Lemma list_videos_state collation pg sz sort_by w :
  snd (list_videos collation pg sz sort_by w) = w.
Proof.
  unfold list_videos.
  destruct (negb (valid_paging pg sz && valid_sort_by sort_by)); reflexivity.
Qed.

Lemma search_videos_state q pg sz w : snd (search_videos q pg sz w) = w.
Proof.
  unfold search_videos. destruct q as [q|]; [|reflexivity].
  destruct (negb ((1 <=? String.length q)%nat && valid_paging pg sz));
    reflexivity.
Qed.











(** ** Ingestion and [updated_at] *)

(** An accepted record whose id has a row leaves the row's two timestamps
    as they were, whatever the time of the run. *)
Lemma upsert_existing_keeps_stamps d p row t v :
  NoDup (ids t) -> values p = Some row -> In v t -> id v = id (row 0 0) ->
  In (row (created_at v) (updated_at v)) (upsert_table (Some d) p t).
Proof.
  intros Hnd Hv Hin Hid.
  rewrite (upsert_table_existing d p row); auto.
  - rewrite <- (rewrite_row_same p row v) by auto. apply in_map. exact Hin.
  - rewrite <- Hid. apply in_map. exact Hin.
Qed.

(** C8, the code at a failing input: a run at time 6 over a feed that
    changes url, name, title, image and views of the row "a", last updated
    at time 1, rewrites those columns and leaves updated_at at 1. *)
Theorem main_upsert_keeps_updated_at :
  let old := mkVideo "a" "u" "n" "t" None None None None None 3 1 1 in
  let w := mkWorld [old] 1 in
  let e := mkEnv true (fun _ => 5%N) true in
  let feed := [Object (mkPayload (Some "a") (Some "u2") (Some "n2") (Some "t2")
                                 (Some "i") None None (Some 10) None None)] in
  main e feed w
  = (0, [Processed 1 1 (Some "a"); CommitSuccessful; AllProcessed],
     mkWorld [mkVideo "a" "u2" "n2" "t2" (Some "i") None None None None 10 1 1] 6).
Proof. reflexivity. Qed.

(** ** [search_videos] *)

Lemma like_percent p s :
  like (String "%" p) s
  = like p s || match s with
                | EmptyString => false
                | String _ s' => like (String "%" p) s'
                end.
Proof. destruct s; reflexivity. Qed.

Lemma like_literal c p s :
  Ascii.eqb c "%" = false -> Ascii.eqb c "_" = false -> Ascii.eqb c "\" = false ->
  like (String c p) s
  = match s with
    | EmptyString => false
    | String x s' => Ascii.eqb x c && like p s'
    end.
Proof. intros H1 H2 H3. simpl. rewrite H1, H2, H3. reflexivity. Qed.

Lemma like_any s : like "%" s = true.
Proof.
  induction s as [|c s IH]; rewrite like_percent; simpl; auto.
Qed.

Lemma like_percent_iff p s :
  like (String "%" p) s = true
  <-> exists pre rest, s = pre ++ rest /\ like p rest = true.
Proof.
  induction s as [|c s IH]; rewrite like_percent.
  - rewrite orb_false_r. split.
    + intros H. exists "", "". auto.
    + intros (pre & rest & He & Hl). destruct pre; [|discriminate].
      simpl in He. subst rest. exact Hl.
  - rewrite orb_true_iff, IH. split.
    + intros [H|(pre & rest & He & Hl)].
      * exists "", (String c s). auto.
      * exists (String c pre), rest. simpl. rewrite He. auto.
    + intros (pre & rest & He & Hl). destruct pre as [|x pre].
      * left. simpl in He. subst rest. exact Hl.
      * right. simpl in He. inversion He; subst. eauto.
Qed.

Lemma like_plain_prefix q : plain q = true ->
  forall s, like (q ++ "%") s = true <-> exists post, s = q ++ post.
Proof.
  induction q as [|c q IH]; intros Hp s.
  - simpl append. rewrite like_any. split; eauto.
  - simpl in Hp. rewrite !andb_true_iff, !negb_true_iff in Hp.
    destruct Hp as [[[H1 H2] H3] Hq].
    change (String c q ++ "%") with (String c (q ++ "%")).
    rewrite like_literal by assumption.
    destruct s as [|x s].
    + split; [discriminate | intros [post H]; discriminate].
    + rewrite andb_true_iff, (IH Hq), Ascii.eqb_eq. split.
      * intros [-> [post ->]]. exists post. reflexivity.
      * intros [post H]. simpl in H. inversion H; subst. eauto.
Qed.

Lemma like_contains q s :
  plain q = true -> (like ("%" ++ q ++ "%") s = true <-> contains q s).
Proof.
  intros Hp. change ("%" ++ q ++ "%") with (String "%" (q ++ "%")).
  rewrite like_percent_iff. unfold contains. split.
  - intros (pre & rest & -> & Hl). apply (like_plain_prefix q Hp) in Hl.
    destruct Hl as [post ->]. eauto.
  - intros (pre & post & ->). exists pre, (q ++ post). split; auto.
    apply (like_plain_prefix q Hp). eauto.
Qed.

Lemma lower_append s1 s2 : lower (s1 ++ s2) = lower s1 ++ lower s2.
Proof. induction s1 as [|c s1 IH]; simpl; congruence. Qed.

Lemma plain_lower q : plain (lower q) = plain q.
Proof.
  induction q as [|c q IH]; simpl; auto. rewrite IH. f_equal.
  destruct c as [[] [] [] [] [] [] [] []]; reflexivity.
Qed.


(** X24: for a query without the characters that [LIKE] reads specially,
    the filter of [search_videos] is the case-insensitive substring test
    on title, name and script. *)
Lemma search_filter_plain q v :
  plain q = true ->
  (search_filter q v = true
   <-> (contains (lower q) (lower (title v))
        \/ contains (lower q) (lower (name v))
        \/ exists s, script v = Some s /\ contains (lower q) (lower s))).
Proof.
  intros Hp. unfold search_filter, ilike.
  assert (Hl : lower ("%" ++ q ++ "%") = "%" ++ lower q ++ "%").
  { rewrite !lower_append. reflexivity. }
  rewrite Hl. rewrite <- plain_lower in Hp.
  rewrite !orb_true_iff, !like_contains by exact Hp.
  destruct (script v) as [s|].
  - rewrite like_contains by exact Hp. split.
    + intros [[H|H]|H]; eauto.
    + intros [H|[H|(s' & Hs & H)]]; auto. inversion Hs; subst. auto.
  - split.
    + intros [[H|H]|H]; auto. discriminate.
    + intros [H|[H|(s' & Hs & H)]]; auto. discriminate.
Qed.


(** C4, the code at a failing input: the query "_" returns a row none of
    whose title, name and script contains an underscore, since the query is
    put into the LIKE pattern as it is and [_] matches any character. *)
Theorem search_videos_underscore :
  let v := mkVideo "1" "u" "n" "xyz" None None None None None 0 0 0 in
  let w := mkWorld [v] 0 in
  search_videos (Some "_") 1 20 w = (OkPage (mkPage 1 1 20 1 [v]), w)
  /\ ~ contains (lower "_") (lower (title v))
  /\ ~ contains (lower "_") (lower (name v))
  /\ script v = None.
Proof.
  simpl. split; [reflexivity|]. split; [|split; [|reflexivity]].
  - intros (pre & post & H).
    destruct pre as [|c1 [|c2 [|c3 [|c4 pre]]]]; simpl in H; inversion H.
  - intros (pre & post & H).
    destruct pre as [|c1 [|c2 pre]]; simpl in H; inversion H.
Qed.

(** * Further properties of the resource API *)

(** ** [delete_video] *)

Lemma query_first_delete_row_same k t : query_first k (delete_row k t) = None.
Proof.
  apply query_first_None. unfold ids, delete_row. intros H.
  apply in_map_iff in H. destruct H as [v [Hv Hin]].
  apply filter_In in Hin. destruct Hin as [_ Hne].
  apply negb_true_iff, String.eqb_neq in Hne. auto.
Qed.

Lemma query_first_delete_row_other k k' t :
  k' <> k -> query_first k' (delete_row k t) = query_first k' t.
Proof.
  intros Hne. unfold query_first, delete_row.
  induction t as [|x t IH]; simpl; auto.
  destruct (String.eqb (id x) k) eqn:E; simpl.
  - apply String.eqb_eq in E.
    assert (String.eqb (id x) k' = false) as -> by (apply String.eqb_neq; congruence).
    exact IH.
  - destruct (String.eqb (id x) k'); auto.
Qed.

Lemma length_delete_row k t :
  NoDup (ids t) -> In k (ids t) ->
  S (List.length (delete_row k t)) = List.length t.
Proof.
  unfold ids, delete_row. induction t as [|x t IH]; simpl; intros Hnd Hin; [tauto|].
  inversion Hnd as [|? ? Hnin Hnd']; subst.
  destruct (String.eqb (id x) k) eqn:E; simpl.
  - apply String.eqb_eq in E. f_equal.
    assert (Hall : forall y, In y t -> negb (String.eqb (id y) k) = true).
    { intros y Hy. apply negb_true_iff, String.eqb_neq. intros Hk.
      apply Hnin. rewrite E, <- Hk. apply in_map. exact Hy. }
    clear - Hall. induction t as [|y t IH]; simpl; auto.
    rewrite (Hall y) by (simpl; auto). simpl. f_equal. apply IH.
    intros z Hz. apply Hall. simpl. auto.
  - f_equal. apply IH; auto. destruct Hin as [Hin|Hin]; auto.
    apply String.eqb_neq in E. congruence.
Qed.

(** X1: deleting an id that no row has is answered 404 and writes nothing;
    deleting an id that a row has is answered 204, after which no row has
    the id, every other id is looked up as before, and the table is one
    row shorter. *)
Theorem delete_video_removes video_id w :
  NoDup (ids (table w)) ->
  (query_first video_id (table w) = None ->
   delete_video video_id w = (HTTPException 404 "Video not found", w))
  /\ (forall v, query_first video_id (table w) = Some v ->
        fst (delete_video video_id w) = NoContent
        /\ query_first video_id (table (snd (delete_video video_id w))) = None
        /\ (forall k, k <> video_id ->
              query_first k (table (snd (delete_video video_id w)))
              = query_first k (table w))
        /\ S (List.length (table (snd (delete_video video_id w))))
           = List.length (table w)
        /\ clock (snd (delete_video video_id w)) = clock w).
Proof.
  intros Hnd. unfold delete_video. split.
  - intros H. rewrite H. reflexivity.
  - intros v Hq. rewrite Hq. simpl.
    destruct (query_first_Some _ _ _ Hq) as [Hk Hin]. rewrite Hk.
    split; [reflexivity|]. split; [apply query_first_delete_row_same|].
    split; [intros k Hne; apply query_first_delete_row_other; exact Hne|].
    split; [|reflexivity].
    apply length_delete_row; auto. rewrite <- Hk. apply in_map. exact Hin.
Qed.

Lemma delete_video_removes_witness :
  let a := mkVideo "a" "u" "n" "t" None None None None None 3 5 5 in
  let b := mkVideo "b" "u" "n" "t" None None None None None 0 1 1 in
  let w := mkWorld [a; b] 5 in
  fst (delete_video "a" w) = NoContent
  /\ query_first "a" (table (snd (delete_video "a" w))) = None
  /\ query_first "b" (table (snd (delete_video "a" w))) = Some b.
Proof.
  intros a b w.
  assert (Hnd : NoDup (ids (table w))).
  { simpl. repeat constructor; simpl; intuition discriminate. }
  destruct (proj2 (delete_video_removes "a" w Hnd) a eq_refl)
    as (H1 & H2 & H3 & _).
  split; [exact H1|]. split; [exact H2|].
  rewrite H3 by discriminate. reflexivity.
Defined.

(** X2: once an id has been deleted, whether or not a row had it, a fetch,
    an update with some key and a second delete of that id are all
    answered 404 and write nothing. *)
Theorem delete_video_then_not_found video_id w :
  let w' := snd (delete_video video_id w) in
  (forall dt, get_video video_id dt w'
              = (HTTPException 404 "Video not found", w'))
  /\ delete_video video_id w' = (HTTPException 404 "Video not found", w')
  /\ (forall body f dt, body f <> None ->
        put_video body video_id dt w'
        = (HTTPException 404 "Video not found", w')).
Proof.
  intros w'.
  assert (Hq : query_first video_id (table w') = None).
  { unfold w', delete_video.
    destruct (query_first video_id (table w)) as [v|] eqn:Hq; simpl; auto.
    destruct (query_first_Some _ _ _ Hq) as [Hk _]. rewrite Hk.
    apply query_first_delete_row_same. }
  split; [|split].
  - intros dt. apply get_video_missing. exact Hq.
  - unfold delete_video. rewrite Hq. reflexivity.
  - intros body f dt Hf. unfold put_video, update_video.
    destruct (dict_exclude_unset (VideoUpdate_validate body)) as [|kv l] eqn:Hd.
    + apply dict_exclude_unset_nil with (f := f) in Hd.
      unfold VideoUpdate_validate in Hd. destruct (body f); [discriminate|congruence].
    + rewrite Hq. reflexivity.
Qed.

(** ** [update_video] *)

Lemma update_video_Ok_inv payload video_id dt w v' w' :
  update_video payload video_id dt w = (Ok v', w') ->
  exists v,
    query_first video_id (table w) = Some v
    /\ w' = mkWorld (replace_row v' (table w)) (clock w + Z.of_N dt)
    /\ id v' = id v /\ views v' = views v /\ created_at v' = created_at v
    /\ updated_at v' = clock w + Z.of_N dt
    /\ forall f, column f v'
                 = match payload f with Some x => x | None => column f v end.
Proof.
  unfold update_video.
  destruct (dict_exclude_unset payload) as [|kv l] eqn:Hd; [discriminate|].
  destruct (query_first video_id (table w)) as [v|] eqn:Hq; [|discriminate].
  rewrite <- Hd. clear Hd kv l. simpl.
  set (o := set_updated_at (apply_updates (load v) (dict_exclude_unset payload))
                           (clock w + Z.of_N dt)).
  destruct (flush o) as [v1|] eqn:Hf; [|discriminate].
  intros H. injection H as Hr Hw. apply respond_video_Ok in Hr.
  destruct Hr as [Hr _]. subst v' w'. exists v.
  pose (v' := v1). fold v'. change (flush o = Some v') in Hf.
  pose proof (flush_load _ _ Hf) as Hl.
  destruct (apply_updates_frame (load v) (dict_exclude_unset payload))
    as (F1 & F2 & F3 & F4).
  assert (Hid : o_id (load v') = o_id o) by (rewrite Hl; reflexivity).
  assert (Hvw : o_views (load v') = o_views o) by (rewrite Hl; reflexivity).
  assert (Hc : o_created_at (load v') = o_created_at o) by (rewrite Hl; reflexivity).
  assert (Hu : o_updated_at (load v') = o_updated_at o) by (rewrite Hl; reflexivity).
  unfold o in Hid, Hvw, Hc, Hu. simpl in Hid, Hvw, Hc, Hu, F1, F2, F3, F4.
  repeat split; try congruence.
  intros f. unfold column at 1. rewrite Hl. unfold o.
  rewrite getattr_set_updated_at, getattr_apply_updates. reflexivity.
Qed.

(** X3: an update that supplies some key for an id that no row has is
    answered 404 and writes nothing, the clock is not even read. *)
Theorem put_video_unknown_id body video_id dt w f :
  body f <> None -> query_first video_id (table w) = None ->
  put_video body video_id dt w = (HTTPException 404 "Video not found", w).
Proof.
  intros Hf Hq. unfold put_video, update_video.
  destruct (dict_exclude_unset (VideoUpdate_validate body)) as [|kv l] eqn:Hd.
  - apply dict_exclude_unset_nil with (f := f) in Hd.
    unfold VideoUpdate_validate in Hd. destruct (body f); [discriminate|congruence].
  - rewrite Hq. reflexivity.
Qed.

Lemma put_video_unknown_id_witness :
  let w := mkWorld [mkVideo "a" "u" "n" "t" None None None None None 0 1 1] 1 in
  let body := fun f => match f with Ftitle => Some (Some "t2") | _ => None end in
  put_video body "zz" 3 w = (HTTPException 404 "Video not found", w).
Proof.
  intros w body. apply (put_video_unknown_id body "zz" 3%N w Ftitle).
  - discriminate.
  - reflexivity.
Defined.

(** X4: a successful update changes one row only: the returned row has the
    id, views and created_at of the stored one, updated_at set to the time
    of the request, every supplied column set to the supplied value (absent
    when blank) and every other column as before; it replaces the stored
    row, and every other id is looked up as before. *)
Theorem put_video_applies body video_id dt w v' w' :
  put_video body video_id dt w = (Ok v', w') ->
  exists v,
    query_first video_id (table w) = Some v
    /\ query_first video_id (table w') = Some v'
    /\ id v' = id v /\ views v' = views v /\ created_at v' = created_at v
    /\ updated_at v' = clock w + Z.of_N dt
    /\ clock w' = clock w + Z.of_N dt
    /\ (forall f, column f v'
                  = match body f with
                    | Some x => empty_to_none x
                    | None => column f v
                    end)
    /\ (forall k, k <> video_id ->
          query_first k (table w') = query_first k (table w))
    /\ ids (table w') = ids (table w).
Proof.
  unfold put_video. intros H.
  destruct (update_video_Ok_inv _ _ _ _ _ _ H)
    as (v & Hq & -> & Hid & Hvw & Hc & Hu & Hcol).
  exists v. destruct (query_first_Some _ _ _ Hq) as [Hk _]. simpl.
  split; [exact Hq|]. split.
  { rewrite <- Hk, <- Hid. apply query_first_replace_same with (v := v).
    rewrite Hid, Hk. exact Hq. }
  repeat split; auto.
  - intros f. rewrite Hcol. unfold VideoUpdate_validate.
    destruct (body f); reflexivity.
  - intros k Hne. apply query_first_replace_other. congruence.
  - apply ids_replace_row.
Qed.

Lemma put_video_applies_witness :
  let v := mkVideo "a" "u" "n" "t" (Some "i") None None None None 3 5 5 in
  let w := mkWorld [v] 5 in
  let body := fun f => match f with Ftitle => Some (Some "t2") | _ => None end in
  exists v', fst (put_video body "a" 2 w) = Ok v'
             /\ title v' = "t2" /\ image v' = Some "i" /\ views v' = 3
             /\ updated_at v' = 7.
Proof.
  intros v w body.
  destruct (put_video body "a" 2%N w) as [r w'] eqn:E.
  assert (Hr : r = Ok (mkVideo "a" "u" "n" "t2" (Some "i") None None None None 3 5 7)).
  { vm_compute in E. inversion E. reflexivity. }
  subst r. eexists. split; [reflexivity|].
  destruct (put_video_applies body "a" 2%N w _ w' E)
    as (v0 & Hq & _ & _ & Hvw & _ & Hu & _).
  simpl. auto.
Defined.

(** X5: an update never stores an empty or white-space-only string: in the
    row that a successful update returns and stores, every column whose key
    was supplied is absent or holds a string with a character that is not
    white space. *)
Theorem put_video_never_stores_blank body video_id dt w v' w' f x s :
  put_video body video_id dt w = (Ok v', w') ->
  body f = Some x -> column f v' = Some s -> all_space s = false.
Proof.
  unfold put_video. intros H Hb Hc.
  destruct (update_video_Ok_inv _ _ _ _ _ _ H) as (v & _ & _ & _ & _ & _ & _ & Hcol).
  rewrite Hcol in Hc. unfold VideoUpdate_validate in Hc. rewrite Hb in Hc.
  simpl in Hc. unfold empty_to_none in Hc.
  destruct x as [s0|]; [|discriminate].
  destruct (all_space s0) eqn:E; [discriminate|].
  inversion Hc; subst. exact E.
Qed.

Lemma put_video_never_stores_blank_witness :
  let v := mkVideo "a" "u" "n" "t" (Some "i") None None None None 3 5 5 in
  let w := mkWorld [v] 5 in
  let body := fun f => match f with Fuser => Some (Some " x ") | _ => None end in
  all_space " x " = false.
Proof.
  intros v w body.
  apply (put_video_never_stores_blank body "a" 2%N w
           (mkVideo "a" "u" "n" "t" (Some "i") None (Some " x ") None None 3 5 7)
           (mkWorld [mkVideo "a" "u" "n" "t" (Some "i") None (Some " x ") None None 3 5 7] 7)
           Fuser (Some " x ") " x ").
  - reflexivity.
  - reflexivity.
  - reflexivity.
Defined.

(** ** What reads and updates never do *)

(** X6: listing and searching return the state as it is, and a fetch or an
    update, whatever its answer, neither adds nor removes a row: the list
    of ids is the same, in the same order. *)
Theorem reads_and_updates_keep_ids collation q pg sz sort_by body video_id dt w :
  snd (list_videos collation pg sz sort_by w) = w
  /\ snd (search_videos q pg sz w) = w
  /\ ids (table (snd (get_video video_id dt w))) = ids (table w)
  /\ ids (table (snd (put_video body video_id dt w))) = ids (table w).
Proof.
  split; [apply list_videos_state|]. split; [apply search_videos_state|]. split.
  - destruct (query_first video_id (table w)) as [v|] eqn:Hq.
    + rewrite (get_video_found _ _ _ _ Hq). simpl. apply ids_replace_row.
    + rewrite (get_video_missing _ _ _ Hq). reflexivity.
  - unfold put_video.
    pose proof (update_video_cases (VideoUpdate_validate body) video_id dt w) as H.
    destruct (update_video (VideoUpdate_validate body) video_id dt w) as [r w'].
    destruct H as [(Ht & _)|(v & v' & _ & _ & -> & _)]; simpl.
    + rewrite Ht. reflexivity.
    + apply ids_replace_row.
Qed.

(** ** Pages *)

Lemma firstn_add {A} a b (l : list A) :
  firstn (a + b) l = (firstn a l ++ firstn b (skipn a l))%list.
Proof.
  revert l. induction a as [|a IH]; intros l; simpl; auto.
  destruct l as [|x l]; simpl.
  - rewrite firstn_nil. reflexivity.
  - rewrite IH. reflexivity.
Qed.

(** Consecutive chunks of [sz] elements make up a prefix. *)
Lemma chunks_concat {A} (sz : nat) (l : list A) k :
  List.concat (map (fun i => firstn sz (skipn (i * sz) l)) (seq 0 k))
  = firstn (k * sz) l.
Proof.
  induction k as [|k IH]; [reflexivity|].
  rewrite seq_S, map_app, concat_app, IH. simpl. rewrite app_nil_r.
  rewrite <- firstn_add. f_equal. lia.
Qed.





(** X8: a page number beyond the last page is not an error: the answer is
    200 with the same total and total_pages and no videos. *)
Theorem list_videos_past_the_end collation pg sz sort_by w :
  1 <= sz <= 100 -> valid_sort_by sort_by = true ->
  (Z.of_nat (List.length (table w)) + sz - 1) / sz < pg ->
  exists p,
    list_videos collation pg sz sort_by w = (OkPage p, w)
    /\ total p = Z.of_nat (List.length (table w))
    /\ total_pages p = (Z.of_nat (List.length (table w)) + sz - 1) / sz
    /\ videos p = [].
Proof.
  intros [Hs1 Hs2] Hv Hpg.
  pose proof (total_pages_ceil (Z.of_nat (List.length (table w))) sz Hs1) as Hc.
  assert (Hp : 1 <= pg).
  { assert (0 <= (Z.of_nat (List.length (table w)) + sz - 1) / sz)
      by (apply Z.div_pos; lia). lia. }
  unfold list_videos.
  assert (valid_paging pg sz = true) as ->.
  { unfold valid_paging. rewrite !andb_true_iff, !Z.leb_le. auto. }
  rewrite Hv. simpl negb. cbv iota. cbv zeta.
  match goal with
  | |- context [offset_limit ?a ?b ?l] =>
      assert (Hnil : offset_limit a b l = [])
  end.
  { apply length_zero_iff_nil. apply Nat2Z.inj.
    match goal with
    | |- context [offset_limit _ _ ?l] =>
        assert (Hl : List.length l = List.length (table w))
    end.
    { destruct sort_by as [s|]; simpl;
        [destruct (String.eqb s "views"); [|destruct (String.eqb s "title")]|];
        apply order_by_length. }
    rewrite offset_limit_length, Hl by lia. nia. }
  rewrite Hnil. eexists. split; [reflexivity|]. simpl. auto.
Qed.

Lemma list_videos_past_the_end_witness :
  let w := mkWorld [mkVideo "a" "u" "n" "t1" None None None None None 3 5 5] 7 in
  exists p, list_videos String.leb 5 10 None w = (OkPage p, w)
            /\ total p = 1 /\ videos p = [].
Proof.
  intros w.
  destruct (list_videos_past_the_end String.leb 5 10 None w)
    as (p & H1 & H2 & _ & H4).
  - lia.
  - reflexivity.
  - reflexivity.
  - exists p. auto.
Defined.

(** ** Create, then fetch *)

Lemma query_first_app_new k t v :
  ~ In k (ids t) -> id v = k -> query_first k (t ++ [v]) = Some v.
Proof.
  intros Hnin Hid. unfold query_first, ids in *.
  induction t as [|x t IH]; simpl in *.
  - rewrite Hid, String.eqb_refl. reflexivity.
  - destruct (String.eqb (id x) k) eqn:E.
    + apply String.eqb_eq in E. tauto.
    + apply IH. tauto.
Qed.

(** X9: after a create that answered 201, the table is one row longer, the
    returned id looks up the returned row, and a first fetch of that id
    returns the same row with views 1. *)
Theorem post_video_then_get body entropy dt1 dt2 dt w v w1 :
  post_video body entropy dt1 dt2 w = (Created v, w1) ->
  query_first (id v) (table w1) = Some v
  /\ List.length (table w1) = S (List.length (table w))
  /\ fst (get_video (id v) dt w1) = Ok (viewed v 1 (clock w1 + Z.of_N dt))
  /\ views (viewed v 1 (clock w1 + Z.of_N dt)) = 1.
Proof.
  unfold post_video. destruct (VideoCreate_validate body) as [payload|];
    [|discriminate].
  destruct (create_video_cases payload entropy dt1 dt2 w) as [[_ ->]|[Hnin ->]];
    [discriminate|].
  intros H. inversion H; subst v w1. clear H. simpl table. simpl id.
  assert (Hq : query_first (uuid4_hex entropy)
                 (table w ++ [mkVideo (uuid4_hex entropy) (c_url payload)
                    (c_name payload) (c_title payload) (c_image payload)
                    (c_video payload) (c_user payload) (c_poster payload)
                    (c_script payload) 0 (clock w + Z.of_N dt1)
                    (clock w + Z.of_N dt1 + Z.of_N dt2)])
               = Some (mkVideo (uuid4_hex entropy) (c_url payload)
                    (c_name payload) (c_title payload) (c_image payload)
                    (c_video payload) (c_user payload) (c_poster payload)
                    (c_script payload) 0 (clock w + Z.of_N dt1)
                    (clock w + Z.of_N dt1 + Z.of_N dt2))).
  { apply query_first_app_new; auto. }
  split; [exact Hq|]. split.
  - rewrite length_app. simpl. lia.
  - split; [|reflexivity].
    match goal with
    | |- fst (get_video _ _ ?w1) = _ =>
        rewrite (get_video_found (uuid4_hex entropy) dt w1 _ Hq)
    end.
    reflexivity.
Qed.

Lemma post_video_then_get_witness :
  let body := fun f => match f with
                       | Furl => Some (Some "u") | Fname => Some (Some "n")
                       | Ftitle => Some (Some "t") | _ => None
                       end in
  let r := post_video body 7 1 0 (mkWorld [] 10) in
  exists v, fst r = Created v
            /\ exists v', fst (get_video (id v) 2 (snd r)) = Ok v' /\ views v' = 1.
Proof.
  intros body r.
  destruct r as [x w1] eqn:E. unfold r in E.
  assert (Hx : exists v, x = Created v).
  { vm_compute in E. inversion E. eexists. reflexivity. }
  destruct Hx as [v ->]. exists v. split; [reflexivity|].
  destruct (post_video_then_get body 7 1 0 2 (mkWorld [] 10) v w1 E)
    as (_ & _ & H3 & H4).
  eexists. split; [exact H3 | exact H4].
Defined.

(** ** The case of the query *)

Lemma lower_char_idem c : lower_char (lower_char c) = lower_char c.
Proof. destruct c as [[] [] [] [] [] [] [] []]; reflexivity. Qed.

Lemma lower_idem s : lower (lower s) = lower s.
Proof.
  induction s as [|c s IH]; simpl; auto. rewrite lower_char_idem, IH. reflexivity.
Qed.

Lemma length_lower s : String.length (lower s) = String.length s.
Proof. induction s as [|c s IH]; simpl; auto. Qed.

Lemma search_filter_lower q v : search_filter (lower q) v = search_filter q v.
Proof.
  unfold search_filter, ilike. rewrite !lower_append, lower_idem. reflexivity.
Qed.

(** X10: the answer to a search does not depend on the case of the
    letters of the query: the query and its lower-case form get the same
    response. *)
Theorem search_videos_case_of_query q pg sz w :
  search_videos (Some (lower q)) pg sz w = search_videos (Some q) pg sz w.
Proof.
  unfold search_videos. rewrite length_lower.
  destruct (negb ((1 <=? String.length q)%nat && valid_paging pg sz));
    [reflexivity|].
  assert (Hf : filter (search_filter (lower q)) (table w)
               = filter (search_filter q) (table w)).
  { apply filter_ext. intros v. apply search_filter_lower. }
  rewrite Hf. reflexivity.
Qed.

(** * Further properties of the ingestion script *)

Lemma last_accepted_Some feed k p :
  last_accepted feed k = Some p ->
  In p feed /\ exists row, values p = Some row /\ id (row 0 0) = k.
Proof.
  induction feed as [|p0 feed IH]; simpl; [discriminate|].
  destruct (last_accepted feed k) as [q|] eqn:E.
  - intros H. inversion H; subst q. destruct (IH eq_refl) as [Hin Hr]. auto.
  - destruct (values p0) as [row|] eqn:Hv; [|discriminate].
    destruct (String.eqb (id (row 0 0)) k) eqn:Ek; [|discriminate].
    intros H. inversion H; subst p0. apply String.eqb_eq in Ek. eauto.
Qed.

Lemma last_accepted_None_cons p feed k :
  last_accepted (p :: feed) k = None ->
  last_accepted feed k = None
  /\ forall row, values p = Some row -> id (row 0 0) <> k.
Proof.
  simpl. destruct (last_accepted feed k); [discriminate|].
  intros H. split; auto. intros row Hv. rewrite Hv in H.
  destruct (String.eqb (id (row 0 0)) k) eqn:E; [discriminate|].
  apply String.eqb_neq. exact E.
Qed.

Lemma rewrite_row_unrelated p v :
  (forall row, values p = Some row -> id (row 0 0) <> id v) -> rewrite_row p v = v.
Proof.
  intros H. destruct (values p) as [row|] eqn:Hv.
  - apply rewrite_row_other with (row := row); auto.
    intros E. apply (H row eq_refl). auto.
  - apply rewrite_row_none. exact Hv.
Qed.

Lemma overwrite_untouched feed : forall v,
  last_accepted feed (id v) = None -> overwrite feed v = v.
Proof.
  induction feed as [|p feed IH]; intros v H; [reflexivity|].
  destruct (last_accepted_None_cons _ _ _ H) as [H1 H2].
  unfold overwrite. simpl. rewrite (rewrite_row_unrelated p v H2). apply IH, H1.
Qed.

Lemma overwrite_last feed k p row : forall v,
  last_accepted feed k = Some p -> values p = Some row -> id v = k ->
  overwrite feed v = row (created_at v) (updated_at v).
Proof.
  induction feed as [|p0 feed IH]; intros v Hl Hv Hid; [discriminate|].
  simpl in Hl. unfold overwrite. simpl. fold (overwrite feed (rewrite_row p0 v)).
  destruct (last_accepted feed k) as [q|] eqn:E.
  - inversion Hl; subst q. rewrite (IH (rewrite_row p0 v) eq_refl Hv).
    + destruct (stamps_rewrite_row p0 v) as [-> ->]. reflexivity.
    + rewrite id_rewrite_row. exact Hid.
  - destruct (values p0) as [row0|] eqn:Hv0; [|discriminate].
    destruct (String.eqb (id (row0 0 0)) k) eqn:Ek; [|discriminate].
    inversion Hl; subst p0. rewrite Hv in Hv0. inversion Hv0; subst row0.
    apply String.eqb_eq in Ek.
    rewrite overwrite_untouched.
    + apply rewrite_row_same; auto. congruence.
    + rewrite id_rewrite_row, Hid. exact E.
Qed.

(** Last write wins, at the end of the loop. *)
Lemma loop_records_last e total ps idx w log k p row :
  NoDup (ids (table w)) -> ts_default e = true ->
  last_accepted ps k = Some p -> values p = Some row ->
  exists v,
    query_first k (table (fst (loop_records e total idx ps (w, log)))) = Some v
    /\ v = row (created_at v) (updated_at v).
Proof.
  intros Hnd Hd Hl Hv.
  destruct (loop_records_saturated e total ps Hd idx w log Hnd)
    as (_ & _ & S3 & S4 & _).
  destruct (last_accepted_Some _ _ _ Hl) as (Hin & row' & Hv' & Hk).
  rewrite Hv in Hv'. inversion Hv'; subst row'.
  specialize (S3 p row Hin Hv). rewrite Hk in S3.
  destruct (query_first k (table (fst (loop_records e total idx ps (w, log)))))
    as [v|] eqn:Hq.
  - exists v. split; [reflexivity|].
    destruct (query_first_Some _ _ _ Hq) as [Hid Hvin].
    rewrite <- (S4 v Hvin) at 1.
    apply (overwrite_last ps k p row); auto.
  - apply query_first_None in Hq. tauto.
Qed.

(** X11: last write wins. After a run over a feed of objects that
    committed, on a table where the engine fills the timestamps that the
    statement leaves out, the row of an id holds, in all ten columns of
    the statement, the values of the last accepted record of the feed with
    that id, whatever earlier records and earlier requests had written,
    the view count included. *)
Theorem main_last_write_wins e feed w k p row :
  NoDup (ids (table w)) ->
  ts_default e = true -> commit_ok e = true -> aborts feed = false ->
  last_accepted (records feed) k = Some p -> values p = Some row ->
  exists v,
    query_first k (table (snd (main e feed w))) = Some v
    /\ v = row (created_at v) (updated_at v).
Proof.
  intros Hnd Hd Hc Hab Hl Hv. rewrite main_table, Hc, Hab. simpl.
  apply (loop_records_last e (List.length feed) (records feed) 1 w [] k p row);
    assumption.
Qed.

Lemma main_last_write_wins_witness :
  let e := mkEnv true (fun _ => 1%N) true in
  let p1 := mkPayload (Some "a") (Some "u1") (Some "n") (Some "t") None None None
                      (Some 4) None None in
  let p2 := mkPayload (Some "a") (Some "u2") (Some "n") (Some "t") None None None
                      (Some 0) None None in
  let w := mkWorld [mkVideo "a" "u" "n" "t" None None None None None 9 1 2] 2 in
  exists v, query_first "a" (table (snd (main e [Object p1; Object p2] w))) = Some v
            /\ url v = "u2" /\ views v = 0.
Proof.
  intros e p1 p2 w.
  destruct (main_last_write_wins e [Object p1; Object p2] w "a" p2
              (fun c up => mkVideo "a" "u2" "n" "t" None None None None None 0 c up))
    as (v & Hq & Hv).
  - simpl. repeat constructor; simpl; tauto.
  - reflexivity.
  - reflexivity.
  - reflexivity.
  - reflexivity.
  - reflexivity.
  - exists v. split; [exact Hq|]. rewrite Hv. split; reflexivity.
Defined.

Lemma upsert_table_ids_incl dflt p t : incl (ids t) (ids (upsert_table dflt p t)).
Proof.
  unfold upsert_table, execute.
  destruct (values p) as [row|]; [|apply incl_refl].
  destruct dflt as [d|]; [|apply incl_refl].
  destruct (query_first (id (row d d)) t).
  - rewrite ids_replace_row. apply incl_refl.
  - unfold ids. rewrite map_app. apply incl_appl, incl_refl.
Qed.

Lemma upsert_table_keeps_other dflt p t v :
  In v t -> (forall row, values p = Some row -> id (row 0 0) <> id v) ->
  In v (upsert_table dflt p t).
Proof.
  intros Hin Hne. unfold upsert_table, execute.
  destruct (values p) as [row|] eqn:Hv; auto.
  destruct dflt as [d|]; auto.
  destruct (values_Some _ _ Hv) as (i & vw & _ & _ & H).
  destruct (query_first (id (row d d)) t) as [old|].
  - unfold replace_row. apply in_map_iff. exists v. split; auto.
    destruct (H (created_at old) (updated_at old)) as (H1 & _).
    destruct (H 0 0) as (H2 & _).
    assert (String.eqb (id v) (id (row (created_at old) (updated_at old))) = false)
      as ->; [|reflexivity].
    apply String.eqb_neq. rewrite H1, <- H2. intros E.
    apply (Hne row eq_refl). auto.
  - apply in_or_app. auto.
Qed.

Lemma loop_records_keeps e total feed v : forall idx w log,
  (incl (ids (table w)) (ids (table (fst (loop_records e total idx feed (w, log))))))
  /\ (In v (table w) -> last_accepted feed (id v) = None ->
      In v (table (fst (loop_records e total idx feed (w, log))))).
Proof.
  induction feed as [|p feed IH]; intros idx w log; cbn [loop_records].
  - split; [apply incl_refl | auto].
  - rewrite upsert_record_eq.
    match goal with
    | |- context [loop_records e total (S idx) feed (?w1, ?l1)] =>
        destruct (IH (S idx) w1 l1) as [I1 I2]
    end.
    split.
    + eapply incl_tran; [|exact I1]. simpl. apply upsert_table_ids_incl.
    + intros Hin Hl. destruct (last_accepted_None_cons _ _ _ Hl) as [H1 H2].
      apply I2; auto. simpl. apply upsert_table_keeps_other; auto.
Qed.

(** X12: the ingestion script never deletes: every id of the table is
    still an id after a run, and a row whose id no acceptable record of
    the feed carries is in the table exactly as it was, whether the run
    commits or not. *)
Theorem main_never_deletes e feed w :
  incl (ids (table w)) (ids (table (snd (main e feed w))))
  /\ forall v, In v (table w) -> last_accepted (records feed) (id v) = None ->
               In v (table (snd (main e feed w))).
Proof.
  rewrite main_table. destruct (commit_ok e && negb (aborts feed)).
  - split.
    + apply (loop_records_keeps e (List.length feed) (records feed)
               (mkVideo "" "" "" "" None None None None None 0 0 0) 1 w []).
    + intros v.
      apply (loop_records_keeps e (List.length feed) (records feed) v 1 w []).
  - split; [apply incl_refl | auto].
Qed.

Lemma main_never_deletes_witness :
  let e := mkEnv true (fun _ => 1%N) true in
  let b := mkVideo "b" "u" "n" "t" None None None None None 9 1 2 in
  let feed := [Object (mkPayload (Some "a") (Some "u1") (Some "n") (Some "t")
                                 None None None (Some 4) None None)] in
  In b (table (snd (main e feed (mkWorld [b] 2)))).
Proof.
  intros e b feed.
  apply (proj2 (main_never_deletes e feed (mkWorld [b] 2)) b).
  - left. reflexivity.
  - reflexivity.
Defined.

Lemma upsert_table_NoDup dflt p t :
  NoDup (ids t) -> NoDup (ids (upsert_table dflt p t)).
Proof.
  intros Hnd. destruct dflt as [d|].
  - apply (upsert_table_step d p t Hnd).
  - rewrite upsert_table_refused; auto.
Qed.

Lemma upsert_table_keeps_stamps dflt p t v :
  NoDup (ids t) -> In v t ->
  exists v', In v' (upsert_table dflt p t)
             /\ id v' = id v /\ created_at v' = created_at v
             /\ updated_at v' = updated_at v.
Proof.
  intros Hnd Hin.
  destruct dflt as [d|]; [|rewrite upsert_table_refused; eauto].
  destruct (values p) as [row|] eqn:Hv; [|rewrite upsert_table_refused; eauto].
  destruct (in_dec string_dec (id (row 0 0)) (ids t)) as [Hi|Hi].
  - rewrite (upsert_table_existing d p row); auto.
    exists (rewrite_row p v). split; [apply in_map; exact Hin|].
    destruct (stamps_rewrite_row p v). rewrite id_rewrite_row. auto.
  - rewrite (upsert_table_new d p row); auto.
    exists v. split; [apply in_or_app; auto | auto].
Qed.

Lemma loop_records_keeps_stamps e total feed : forall idx w log v,
  NoDup (ids (table w)) -> In v (table w) ->
  exists v', In v' (table (fst (loop_records e total idx feed (w, log))))
             /\ id v' = id v /\ created_at v' = created_at v
             /\ updated_at v' = updated_at v.
Proof.
  induction feed as [|p feed IH]; intros idx w log v Hnd Hin; cbn [loop_records].
  - exists v. auto.
  - rewrite upsert_record_eq.
    set (dflt := column_default e).
    destruct (upsert_table_keeps_stamps dflt p (table w) v Hnd Hin)
      as (v1 & Hin1 & Hid1 & Hc1 & Hu1).
    match goal with
    | |- context [loop_records e total (S idx) feed (?w1, ?l1)] =>
        destruct (IH (S idx) w1 l1 v1) as (v' & Hin' & Hid' & Hc' & Hu')
    end.
    + simpl. apply upsert_table_NoDup. exact Hnd.
    + exact Hin1.
    + exists v'. repeat split; auto; congruence.
Qed.

(** X13: a run never changes the timestamps of a row that was there: for
    every row of the table before the run, the table after the run has a
    row with the same id, the same created_at and the same updated_at,
    whatever the feed writes to its other columns. *)
Theorem main_keeps_stamps e feed w v :
  NoDup (ids (table w)) -> In v (table w) ->
  exists v', In v' (table (snd (main e feed w)))
             /\ id v' = id v /\ created_at v' = created_at v
             /\ updated_at v' = updated_at v.
Proof.
  intros Hnd Hin. rewrite main_table.
  destruct (commit_ok e && negb (aborts feed)).
  - apply loop_records_keeps_stamps; auto.
  - exists v. auto.
Qed.

Lemma main_keeps_stamps_witness :
  let e := mkEnv true (fun _ => 4%N) true in
  let a := mkVideo "a" "u" "n" "t" None None None None None 9 1 2 in
  let feed := [Object (mkPayload (Some "a") (Some "u1") (Some "n") (Some "t")
                                 None None None (Some 4) None None)] in
  exists v', In v' (table (snd (main e feed (mkWorld [a] 2))))
             /\ id v' = "a" /\ created_at v' = 1 /\ updated_at v' = 2.
Proof.
  intros e a feed.
  apply (main_keeps_stamps e feed (mkWorld [a] 2) a).
  - simpl. repeat constructor; simpl; tauto.
  - left. reflexivity.
Defined.

Lemma upsert_table_origin dflt p t r :
  In r (upsert_table dflt p t) ->
  (exists r0, In r0 t /\ id r0 = id r /\ created_at r0 = created_at r
              /\ updated_at r0 = updated_at r)
  \/ (dflt = Some (created_at r) /\ updated_at r = created_at r).
Proof.
  unfold upsert_table, execute.
  destruct (values p) as [row|] eqn:Hv; [|intros H; left; eauto].
  destruct dflt as [d|]; [|intros H; left; eauto].
  destruct (values_Some _ _ Hv) as (i & vw & _ & _ & H).
  destruct (query_first (id (row d d)) t) as [old|] eqn:Hq.
  - intros Hr. destruct (replace_row_In _ _ _ Hr) as [->|[Hin _]]; [|left; eauto].
    destruct (query_first_Some _ _ _ Hq) as [Hid Hoin].
    left. exists old. split; auto.
    destruct (H (created_at old) (updated_at old)) as (H1 & _ & H3 & H4).
    destruct (H d d) as (H5 & _). repeat split; congruence.
  - intros Hr. apply in_app_or in Hr. destruct Hr as [Hr|[Hr|[]]]; [left; eauto|].
    right. subst r. destruct (H d d) as (_ & _ & H3 & H4).
    rewrite H3, H4. auto.
Qed.

Lemma loop_records_origin e total feed : forall idx w log r,
  In r (table (fst (loop_records e total idx feed (w, log)))) ->
  (exists r0, In r0 (table w) /\ id r0 = id r /\ created_at r0 = created_at r
              /\ updated_at r0 = updated_at r)
  \/ (ts_default e = true
      /\ created_at r = zero_date /\ updated_at r = zero_date).
Proof.
  induction feed as [|p feed IH]; intros idx w log r; cbn [loop_records].
  - intros H. left. eauto.
  - rewrite upsert_record_eq. intros Hr.
    match type of Hr with
    | context [loop_records e total (S idx) feed (?w1, ?l1)] =>
        destruct (IH (S idx) w1 l1 r Hr)
          as [(r1 & Hin1 & Hid1 & Hc1 & Hu1)|Hz]
    end; simpl in *; [|right; exact Hz].
    destruct (upsert_table_origin _ _ _ _ Hin1)
      as [(r0 & Hin0 & Hid0 & Hc0 & Hu0)|(Hd & Hu)].
    + left. exists r0. repeat split; auto; congruence.
    + right. unfold column_default in Hd.
      destruct (ts_default e); [|discriminate]. inversion Hd.
      repeat split; congruence.
Qed.

(** X14: a row that a run adds does not carry the time of the run: the
    statement names neither [created_at] nor [updated_at] and the table
    declares no default for them, so the row is there only when the engine
    fills them, and then both hold the zero date. *)
Theorem main_stamps_new_rows e feed w r :
  In r (table (snd (main e feed w))) -> ~ In (id r) (ids (table w)) ->
  ts_default e = true
  /\ created_at r = zero_date /\ updated_at r = zero_date.
Proof.
  intros Hr Hnew. rewrite main_table in Hr.
  assert (Hold : forall r0, In r0 (table w) -> id r0 = id r -> False).
  { intros r0 Hin Hid. apply Hnew. rewrite <- Hid. apply in_map. exact Hin. }
  destruct (commit_ok e && negb (aborts feed)).
  - destruct (loop_records_origin e (List.length feed) (records feed) 1 w [] r Hr)
      as [(r0 & Hin & Hid & _)|Hz]; [exfalso; eauto | exact Hz].
  - exfalso. apply Hnew. apply in_map. exact Hr.
Qed.

Lemma main_stamps_new_rows_witness :
  let e := mkEnv true (fun _ => 4%N) true in
  let feed := [Object (mkPayload (Some "a") (Some "u1") (Some "n") (Some "t")
                                 None None None (Some 4) None None)] in
  let r := mkVideo "a" "u1" "n" "t" None None None None None 4 0 0 in
  In r (table (snd (main e feed (mkWorld [] 2))))
  /\ created_at r = zero_date /\ updated_at r = zero_date.
Proof.
  intros e feed r.
  assert (Hr : In r (table (snd (main e feed (mkWorld [] 2)))))
    by (left; reflexivity).
  split; [exact Hr|].
  apply (main_stamps_new_rows e feed (mkWorld [] 2) r Hr).
  simpl. tauto.
Defined.

(** ** The batch *)

Lemma values_carries p row :
  values p = Some row -> forall c u, carries p (row c u).
Proof.
  unfold values, carries.
  destruct (p_id p) as [i|], (p_url p) as [u0|], (p_name p) as [n|],
    (p_title p) as [ti|], (p_views p) as [vw|]; try discriminate.
  intros H c u. inversion H; subst. simpl. repeat split; reflexivity.
Qed.

Lemma query_first_app_other k t v :
  id v <> k -> query_first k (t ++ [v]) = query_first k t.
Proof.
  intros Hne. unfold query_first. induction t as [|x t IH]; simpl.
  - apply String.eqb_neq in Hne. rewrite Hne. reflexivity.
  - destruct (String.eqb (id x) k); auto.
Qed.

Lemma query_first_In t v :
  NoDup (ids t) -> In v t -> query_first (id v) t = Some v.
Proof.
  intros Hnd Hin. destruct (query_first (id v) t) as [v0|] eqn:Hq.
  - destruct (query_first_Some _ _ _ Hq) as [Hid Hin0].
    f_equal. apply (unique_row t); auto.
  - apply query_first_None in Hq. exfalso. apply Hq. apply in_map. exact Hin.
Qed.

(** A statement leaves alone the rows of the ids that it does not name. *)
Lemma upsert_table_query_other dflt p t k :
  (forall row, values p = Some row -> id (row 0 0) <> k) ->
  query_first k (upsert_table dflt p t) = query_first k t.
Proof.
  intros Hne. unfold upsert_table, execute.
  destruct (values p) as [row|] eqn:Hv; [|reflexivity].
  destruct dflt as [d|]; [|reflexivity].
  destruct (values_Some _ _ Hv) as (i & vw & _ & _ & H).
  assert (Hid : forall c u, id (row c u) <> k).
  { intros c u. destruct (H c u) as (-> & _). destruct (H 0 0) as (E & _).
    rewrite <- E. apply Hne. reflexivity. }
  destruct (query_first (id (row d d)) t) as [old|].
  - apply query_first_replace_other. intros E. apply (Hid _ _ (eq_sym E)).
  - apply query_first_app_other. apply Hid.
Qed.

Lemma loop_records_untouched e total ps k : forall idx w log,
  last_accepted ps k = None ->
  query_first k (table (fst (loop_records e total idx ps (w, log))))
  = query_first k (table w).
Proof.
  induction ps as [|p ps IH]; intros idx w log Hl; cbn [loop_records];
    [reflexivity|].
  destruct (last_accepted_None_cons _ _ _ Hl) as [H1 H2].
  rewrite upsert_record_eq, IH by exact H1. simpl.
  apply upsert_table_query_other. exact H2.
Qed.

Lemma loop_records_NoDup e total ps : forall idx w log,
  NoDup (ids (table w)) ->
  NoDup (ids (table (fst (loop_records e total idx ps (w, log))))).
Proof.
  induction ps as [|p ps IH]; intros idx w log Hnd; cbn [loop_records];
    [exact Hnd|].
  rewrite upsert_record_eq. apply IH. simpl. apply upsert_table_NoDup, Hnd.
Qed.

(** The timestamps of a row after the loop: those of the row that had its
    id before, or the zero date. *)
Lemma loop_records_stamps e total ps idx w log k v :
  NoDup (ids (table w)) ->
  query_first k (table (fst (loop_records e total idx ps (w, log)))) = Some v ->
  match query_first k (table w) with
  | Some old => created_at v = created_at old /\ updated_at v = updated_at old
  | None => created_at v = zero_date /\ updated_at v = zero_date
  end.
Proof.
  intros Hnd Hq. destruct (query_first_Some _ _ _ Hq) as [Hid Hin].
  pose proof (loop_records_NoDup e total ps idx w log Hnd) as Hnd'.
  destruct (query_first k (table w)) as [old|] eqn:Hold.
  - destruct (query_first_Some _ _ _ Hold) as [Hido Hino].
    destruct (loop_records_keeps_stamps e total ps idx w log old Hnd Hino)
      as (v' & Hin' & Hid' & Hc' & Hu').
    assert (v' = v) by (apply (unique_row _ _ _ Hnd' Hin' Hin); congruence).
    subst v'. auto.
  - apply query_first_None in Hold.
    destruct (loop_records_origin e total ps idx w log v Hin)
      as [(r0 & Hin0 & Hid0 & _)|(_ & Hz)]; [|exact Hz].
    exfalso. apply Hold. rewrite <- Hid, <- Hid0. apply in_map. exact Hin0.
Qed.

(** The ids of the table after the loop. *)
Lemma loop_records_ids e total ps idx w log k :
  NoDup (ids (table w)) ->
  In k (ids (table (fst (loop_records e total idx ps (w, log)))))
  <-> (In k (ids (table w))
       \/ exists p, In p ps /\ accepted e p = true /\ p_id p = Some k).
Proof.
  intros Hnd. destruct (ts_default e) eqn:Hd.
  - destruct (loop_records_saturated e total ps Hd idx w log Hnd)
      as (_ & S2 & S3 & _ & S5).
    split.
    + intros Hk. destruct (S5 k Hk) as [H|(p & row & Hp & Hv & Hid)]; auto.
      right. exists p. split; auto. apply accepted_id. eauto.
    + intros [H|(p & Hp & Ha)]; [apply S2; exact H|].
      apply accepted_id in Ha. destruct Ha as (_ & row & Hv & Hid).
      rewrite <- Hid. eapply S3; eauto.
  - rewrite loop_records_no_default by exact Hd. split; auto.
    intros [H|(p & _ & Ha & _)]; auto.
    apply accepted_true in Ha. destruct Ha; congruence.
Qed.

Lemma nth_error_records feed i p :
  aborts feed = false ->
  nth_error (records feed) i = Some p <-> nth_error feed i = Some (Object p).
Proof.
  revert i. induction feed as [|[q|] feed IH]; intros i Hab; simpl in *.
  - destruct i; simpl; split; discriminate.
  - destruct i as [|i]; simpl.
    + split; intros H; inversion H; reflexivity.
    + apply IH. exact Hab.
  - discriminate.
Qed.

Lemma length_records_all feed :
  aborts feed = false -> List.length (records feed) = List.length feed.
Proof.
  induction feed as [|[q|] feed IH]; simpl; intros H; auto; discriminate.
Qed.

Lemma aborts_nonempty feed : aborts feed = true -> feed <> [].
Proof. destruct feed; [discriminate | discriminate]. Qed.

(** C9 (as amended): on a table whose ids are distinct, every element of
    the feed that the loop reaches gets its own log line in order, a
    record that the engine refuses a warning and an accepted one a
    progress line. When every element is a JSON object the loop reaches
    them all, so a refused record stops nothing, and there is one commit
    after the loop. When that commit succeeds the function returns and
    the table is the batch applied to the old one: its ids are the old
    ids and the ids of the accepted records; the row of an id that some
    accepted record names holds, in the ten columns of the statement, the
    values of the last such record, with the timestamps of the old row of
    that id, or the zero date when there was none; every other row is as
    it was. When the commit fails, the exit status is 1 and the table is
    the one before the run. An element that is not an object is not
    skipped: the run ends there, the elements after it are not processed,
    nothing is committed, and the exit status is 1. *)
Theorem upsert_videos_batch e videos w :
  NoDup (ids (table w)) ->
  let code := fst (fst (upsert_videos e videos w)) in
  let log := snd (fst (upsert_videos e videos w)) in
  let w' := snd (upsert_videos e videos w) in
  (forall i p, nth_error (records videos) i = Some p ->
               nth_error log i = Some (log_line e (List.length videos) (S i) p))
  /\ (aborts videos = true ->
      code = Some 1
      /\ List.length log = List.length (records videos)
      /\ table w' = table w
      /\ fst (fst (main e videos w)) = 1
      /\ table (snd (main e videos w)) = table w)
  /\ (aborts videos = false ->
      (forall i p, nth_error videos i = Some (Object p) ->
                   nth_error log i
                   = Some (log_line e (List.length videos) (S i) p))
      /\ List.length log = S (List.length videos)
      /\ (commit_ok e = true ->
          code = None
          /\ nth_error log (List.length videos) = Some CommitSuccessful
          /\ NoDup (ids (table w'))
          /\ (forall k, In k (ids (table w'))
                        <-> (In k (ids (table w))
                             \/ exists p, In (Object p) videos
                                          /\ accepted e p = true
                                          /\ p_id p = Some k))
          /\ (forall k p, ts_default e = true ->
                last_accepted (records videos) k = Some p ->
                exists v,
                  query_first k (table w') = Some v
                  /\ carries p v
                  /\ match query_first k (table w) with
                     | Some old => created_at v = created_at old
                                   /\ updated_at v = updated_at old
                     | None => created_at v = zero_date
                               /\ updated_at v = zero_date
                     end)
          /\ (forall k, ts_default e = false
                        \/ last_accepted (records videos) k = None ->
                query_first k (table w') = query_first k (table w)))
      /\ (commit_ok e = false ->
          code = Some 1
          /\ nth_error log (List.length videos) = Some CommitFailed
          /\ table w' = table w
          /\ (videos <> [] -> fst (fst (main e videos w)) = 1))).
Proof.
  intros Hnd. cbv zeta.
  pose proof (main_table e videos w) as Hmt. revert Hmt.
  unfold main, upsert_videos. rewrite upsert_loop_records.
  set (total := List.length videos).
  set (ps := records videos).
  destruct (loop_records_log e total ps 1 w []) as (ext & Hlog & Hlen & Hnth).
  pose proof (loop_records_ids e total ps 1 w []) as Hids.
  pose proof (loop_records_NoDup e total ps 1 w [] Hnd) as Hnd'.
  pose proof (loop_records_last e total ps 1 w []) as Hlast.
  pose proof (loop_records_stamps e total ps 1 w []) as Hst.
  pose proof (loop_records_untouched e total ps) as Hun.
  pose proof (loop_records_no_default e total ps 1 w []) as Hno.
  destruct (loop_records e total 1 ps (w, [])) as [w1 lg] eqn:Hloop.
  simpl in Hlog, Hids, Hnd', Hlast, Hst, Hno. subst lg.
  assert (Hun' : forall k, last_accepted ps k = None ->
                   query_first k (table w1) = query_first k (table w)).
  { intros k Hk. specialize (Hun k 1%nat w [] Hk). rewrite Hloop in Hun.
    exact Hun. }
  clear Hun.
  assert (Hlines : forall i p, nth_error ps i = Some p ->
            nth_error ext i = Some (log_line e total (S i) p)).
  { intros i p Hp. apply (Hnth i p Hp). }
  destruct (aborts videos) eqn:Hab.
  - intros _. simpl. split; [exact Hlines|]. split; [|discriminate].
    intros _. split; [reflexivity|]. split; [exact Hlen|].
    split; [reflexivity|].
    destruct videos as [|x videos]; [discriminate|]. simpl. auto.
  - assert (Hps : List.length ps = List.length videos)
      by (apply length_records_all; exact Hab).
    assert (Hext : forall i p, nth_error videos i = Some (Object p) ->
              nth_error ext i = Some (log_line e total (S i) p)).
    { intros i p Hp. apply Hlines. apply nth_error_records; assumption. }
    assert (Hin : forall p, In p ps <-> In (Object p) videos).
    { intros p. split; [apply records_In|].
      intros H. rewrite (aborts_false _ Hab) in H.
      apply in_map_iff in H. destruct H as (q & Hq & Hin).
      inversion Hq; subst. exact Hin. }
    destruct (commit_ok e) eqn:Hc; simpl; intros Hmt.
    + split.
      { intros i p Hp. rewrite nth_error_app1; [apply Hlines, Hp|].
        rewrite Hlen. apply nth_error_Some. congruence. }
      split; [discriminate|]. intros _.
      split.
      { intros i p Hp. rewrite nth_error_app1; [apply Hext, Hp|].
        rewrite Hlen, Hps. apply nth_error_Some. congruence. }
      split; [rewrite length_app, Hlen, Hps; simpl; lia|].
      split; [|discriminate]. intros _.
      split; [reflexivity|].
      split; [rewrite nth_error_app2 by lia;
              rewrite Hlen, Hps, Nat.sub_diag; reflexivity|].
      split; [exact Hnd'|].
      split.
      { intros k. rewrite (Hids k Hnd). split.
        - intros [H|(p & Hp & H)]; auto. right. exists p.
          split; [apply Hin, Hp | exact H].
        - intros [H|(p & Hp & H)]; auto. right. exists p.
          split; [apply Hin, Hp | exact H]. }
      split.
      { intros k p Hd Hl.
        destruct (last_accepted_Some _ _ _ Hl) as (_ & row & Hv & _).
        destruct (Hlast k p row Hnd Hd Hl Hv) as (v & Hq & Hvr).
        exists v. split; [exact Hq|]. split.
        - rewrite Hvr. apply values_carries. exact Hv.
        - apply (Hst k v Hnd Hq). }
      intros k [Hd|Hl]; [rewrite Hno by exact Hd; reflexivity | apply Hun', Hl].
    + split.
      { intros i p Hp. rewrite nth_error_app1; [apply Hlines, Hp|].
        rewrite Hlen. apply nth_error_Some. congruence. }
      split; [discriminate|]. intros _.
      split.
      { intros i p Hp. rewrite nth_error_app1; [apply Hext, Hp|].
        rewrite Hlen, Hps. apply nth_error_Some. congruence. }
      split; [rewrite length_app, Hlen, Hps; simpl; lia|].
      split; [discriminate|]. intros _.
      split; [reflexivity|].
      split; [rewrite nth_error_app2 by lia;
              rewrite Hlen, Hps, Nat.sub_diag; reflexivity|].
      split; [reflexivity|].
      intros Hne. destruct videos; [congruence | reflexivity].
Qed.

(** C9 on a batch whose second record lacks its url and whose third
    rewrites a stored row. *)
Lemma upsert_videos_batch_witness :
  let e := mkEnv true (fun _ => 1%N) true in
  let c := mkPayload (Some "c") (Some "u") (Some "n") (Some "t") None None None
                     (Some 7) None None in
  let videos :=
    [Object (mkPayload (Some "a") (Some "u") (Some "n") (Some "t") None None
                       None (Some 4) None None);
     Object (mkPayload (Some "b") None (Some "n") (Some "t") None None None
                       (Some 1) None None);
     Object c] in
  let w := mkWorld [mkVideo "c" "u0" "n0" "t0" None None None None None 1 2 3] 5 in
  nth_error (snd (fst (upsert_videos e videos w))) 1 = Some (FailedUpsert (Some "b"))
  /\ nth_error (snd (fst (upsert_videos e videos w))) 2
     = Some (Processed 3 3 (Some "c"))
  /\ In "a" (ids (table (snd (upsert_videos e videos w))))
  /\ exists v, query_first "c" (table (snd (upsert_videos e videos w))) = Some v
               /\ carries c v /\ created_at v = 2 /\ updated_at v = 3.
Proof.
  intros e c videos w.
  destruct (upsert_videos_batch e videos w) as (H1 & _ & H3).
  - simpl. constructor; [simpl; tauto | constructor].
  - destruct (H3 eq_refl) as (_ & _ & H4 & _).
    destruct (H4 eq_refl) as (_ & _ & _ & Hids & Hlast & _).
    split; [exact (H1 1%nat _ eq_refl)|]. split; [exact (H1 2%nat _ eq_refl)|].
    split.
    + apply Hids. right. eexists. split; [left; reflexivity|].
      split; reflexivity.
    + destruct (Hlast "c" c eq_refl eq_refl) as (v & Hq & Hc & Hs).
      exists v. split; [exact Hq|]. split; [exact Hc|]. exact Hs.
Defined.

(** C9 as stated fails: an element of the feed that is not an object (a
    null, say) is a bad record that ends the batch: the record after it
    is never processed, the record before it is not committed, and the
    process exits with status 1. *)
Lemma main_not_object_aborts :
  let e := mkEnv true (fun _ => 1%N) true in
  let feed :=
    [Object (mkPayload (Some "a") (Some "u") (Some "n") (Some "t") None None
                       None (Some 4) None None);
     NotObject;
     Object (mkPayload (Some "c") (Some "u") (Some "n") (Some "t") None None
                       None (Some 7) None None)] in
  let w := mkWorld [] 0 in
  main e feed w = (1, [Processed 1 3 (Some "a")], mkWorld [] 1)
  /\ ~ In (Processed 3 3 (Some "c")) (snd (fst (main e feed w)))
  /\ ~ In CommitSuccessful (snd (fst (main e feed w)))
  /\ table (snd (main e feed w)) = table w.
Proof.
  simpl. split; [reflexivity|]. split; [|split; [|reflexivity]].
  - intros [H|[]]. discriminate H.
  - intros [H|[]]. discriminate H.
Qed.

(** ** The whole script *)

(** X15: the script exits with status 0 exactly when the connection is
    made, the feed is fetched as a list, and the list is empty or all its
    elements are objects and the batch is committed; with any other status
    the table is the one before the run. A connection that was made is closed once, last of all, on
    every path, and one that was not made is never closed. *)
Theorem run_main_outcome connect_ok r e w :
  let code := fst (fst (run_main connect_ok r e w)) in
  let events := snd (fst (run_main connect_ok r e w)) in
  let w' := snd (run_main connect_ok r e w) in
  (code = 0 \/ code = 1)
  /\ (code = 0 <->
      connect_ok = true
      /\ exists data,
           r = Data data
           /\ (data = [] \/ (aborts data = false /\ commit_ok e = true)))
  /\ (code <> 0 -> table w' = table w)
  /\ (connect_ok = true ->
      exists evs, events = (Connected :: evs ++ [ConnectionClosed])%list
                  /\ ~ In ConnectionClosed evs)
  /\ (connect_ok = false -> events = [ConnectionError] /\ w' = w).
Proof.
  assert (Hmain : forall data,
    (fst (fst (main e data w)) = 0 \/ fst (fst (main e data w)) = 1)
    /\ (fst (fst (main e data w)) = 0
        <-> (data = [] \/ (aborts data = false /\ commit_ok e = true)))
    /\ (fst (fst (main e data w)) <> 0 -> table (snd (main e data w)) = table w)).
  { intros data. pose proof (main_table e data w) as Ht. revert Ht.
    unfold main, upsert_videos. destruct data as [|x data].
    - simpl. intros _. repeat split; auto; congruence.
    - rewrite upsert_loop_records.
      destruct (loop_records e (List.length (x :: data)) 1 (records (x :: data))
                             (w, [])) as [w1 lg].
      destruct (aborts (x :: data)), (commit_ok e); simpl; intros Ht;
        repeat split; auto; try lia; try congruence;
        intros [H|[H1 H2]]; discriminate. }
  cbv zeta. unfold run_main. destruct connect_ok; simpl.
  - destruct r as [| | |data]; simpl.
    + split; [auto|]. split; [split; [lia | intros [_ [d [H _]]]; discriminate]|].
      split; [auto|]. split; [|discriminate].
      intros _. exists [FetchError]. split; [reflexivity|].
      simpl. intros [H|[]]; discriminate.
    + split; [auto|]. split; [split; [lia | intros [_ [d [H _]]]; discriminate]|].
      split; [auto|]. split; [|discriminate].
      intros _. exists [FetchError]. split; [reflexivity|].
      simpl. intros [H|[]]; discriminate.
    + split; [auto|]. split; [split; [lia | intros [_ [d [H _]]]; discriminate]|].
      split; [auto|]. split; [|discriminate].
      intros _. exists [FetchError]. split; [reflexivity|].
      simpl. intros [H|[]]; discriminate.
    + destruct (Hmain data) as (M1 & M2 & M3).
      destruct (main e data w) as [[code log] w1]. simpl in *.
      split; [exact M1|]. split.
      { rewrite M2. split.
        - intros H. split; auto. exists data. auto.
        - intros [_ [d [Hd H]]]. inversion Hd; subst. exact H. }
      split; [exact M3|]. split; [|discriminate].
      intros _. exists (FetchedRecords (List.length data) :: map Line log).
      split; [reflexivity|].
      simpl. intros [H|H]; [discriminate|].
      apply in_map_iff in H. destruct H as [l [H _]]. discriminate.
  - split; [auto|]. split; [split; [lia | intros [H _]; discriminate]|].
    split; [auto|]. split; [discriminate | auto].
Qed.

Lemma run_main_outcome_witness :
  let e := mkEnv true (fun _ => 1%N) false in
  let feed := [Object (mkPayload (Some "a") (Some "u1") (Some "n") (Some "t")
                                 None None None (Some 4) None None)] in
  let w := mkWorld [] 2 in
  fst (fst (run_main true (Data feed) e w)) <> 0
  /\ table (snd (run_main true (Data feed) e w)) = table w.
Proof.
  intros e feed w.
  destruct (run_main_outcome true (Data feed) e w) as (_ & _ & H3 & _).
  assert (Hc : fst (fst (run_main true (Data feed) e w)) <> 0)
    by (vm_compute; discriminate).
  split; [exact Hc | exact (H3 Hc)].
Defined.

Lemma delete_video_then_not_found_witness :
  let a := mkVideo "a" "u" "n" "t" None None None None None 3 5 5 in
  let w' := snd (delete_video "a" (mkWorld [a] 5)) in
  let body := fun f => match f with Ftitle => Some (Some "t2") | _ => None end in
  put_video body "a" 1 w' = (HTTPException 404 "Video not found", w').
Proof.
  intros a w' body.
  destruct (delete_video_then_not_found "a" (mkWorld [a] 5)) as (_ & _ & H).
  apply (H body Ftitle 1%N). discriminate.
Defined.

(** * Properties of the front end *)

(** ** [sort_by_views] and [get_popular] *)

Lemma filter_views_insert_sorted n x l :
  filter (fun v => views v =? n) (insert_sorted views_desc x l)
  = filter (fun v => views v =? n) (x :: l).
Proof.
  induction l as [|y l IH]; [reflexivity|].
  cbn [insert_sorted]. destruct (views_desc x y) eqn:E; [reflexivity|].
  unfold views_desc in E. apply Z.leb_gt in E.
  cbn [filter] in *. rewrite IH.
  destruct (views y =? n) eqn:Ey; destruct (views x =? n) eqn:Ex; auto.
  apply Z.eqb_eq in Ey, Ex. lia.
Qed.

Lemma StronglySorted_firstn_skipn {A} (R : A -> A -> Prop) n : forall l a b,
  StronglySorted R l -> In a (firstn n l) -> In b (skipn n l) -> R a b.
Proof.
  induction n as [|n IH]; intros l a b Hs Ha Hb; simpl in *; [tauto|].
  destruct l as [|x l]; simpl in *; [tauto|].
  inversion Hs as [|? ? Hs' Hall]; subst.
  destruct Ha as [->|Ha].
  - rewrite Forall_forall in Hall. apply Hall.
    rewrite <- (firstn_skipn n l). apply in_or_app. auto.
  - eapply IH; eauto.
Qed.

Lemma order_by_views_StronglySorted l :
  StronglySorted (fun a b => views b <= views a) (order_by views_desc l).
Proof.
  apply Sorted_StronglySorted.
  - intros a b c H1 H2. lia.
  - eapply Sorted_impl; [|apply (order_by_Sorted views_desc)].
    + intros a b H. unfold views_desc in H. apply Z.leb_le. exact H.
    + intros a b. unfold views_desc. rewrite !Z.leb_le. lia.
Qed.

(** X16: [sort_by_views] returns the same videos, each as often as given,
    in non-increasing views, and it is stable: the videos with any one
    view count come in the order in which they were given. *)
Theorem sort_by_views_stable videos :
  Permutation videos (sort_by_views videos)
  /\ Sorted (fun a b => views b <= views a) (sort_by_views videos)
  /\ forall n, filter (fun v => views v =? n) (sort_by_views videos)
               = filter (fun v => views v =? n) videos.
Proof.
  unfold sort_by_views. split; [apply order_by_Permutation|]. split.
  - apply StronglySorted_Sorted, order_by_views_StronglySorted.
  - intros n. induction videos as [|x l IH]; [reflexivity|].
    simpl order_by. rewrite filter_views_insert_sorted.
    cbn [filter]. rewrite IH. reflexivity.
Qed.

(** X17: [get_popular] returns at most [n] videos, all of them if there
    are fewer, and they are the most viewed: the given videos are the
    returned ones together with others, none of which has more views than
    any returned one. *)
Theorem get_popular_top videos n :
  List.length (get_popular videos n) = Nat.min n (List.length videos)
  /\ Sorted (fun a b => views b <= views a) (get_popular videos n)
  /\ exists rest,
       Permutation videos (get_popular videos n ++ rest)
       /\ forall a b, In a (get_popular videos n) -> In b rest ->
                      views b <= views a.
Proof.
  unfold get_popular, sort_by_views. split; [|split].
  - rewrite length_firstn, order_by_length. reflexivity.
  - apply Sorted_firstn, StronglySorted_Sorted, order_by_views_StronglySorted.
  - exists (skipn n (order_by views_desc videos)). split.
    + rewrite firstn_skipn. apply order_by_Permutation.
    + intros a b Ha Hb.
      exact (StronglySorted_firstn_skipn (fun a b => views b <= views a) n
               (order_by views_desc videos) a b
               (order_by_views_StronglySorted videos) Ha Hb).
Qed.

(** ** [filter_by_title] *)

Lemma startswith_iff s : forall q,
  startswith s q = true <-> exists post, s = q ++ post.
Proof.
  induction s as [|b s IH]; intros q; destruct q as [|a q]; simpl.
  - split; eauto.
  - split; [discriminate | intros [post H]; discriminate].
  - split; eauto.
  - rewrite andb_true_iff, Ascii.eqb_eq, IH. split.
    + intros [-> [post ->]]. eauto.
    + intros [post H]. inversion H; subst. eauto.
Qed.

Lemma str_in_iff q s : str_in q s = true <-> contains q s.
Proof.
  unfold contains. induction s as [|c s IH]; cbn [str_in].
  - rewrite orb_false_r, startswith_iff. split.
    + intros [post H]. exists "", post. exact H.
    + intros (pre & post & H). destruct pre; [|discriminate]. eauto.
  - rewrite orb_true_iff, startswith_iff, IH. split.
    + intros [[post H]|(pre & post & H)].
      * exists "", post. exact H.
      * exists (String c pre), post. simpl. rewrite H. reflexivity.
    + intros (pre & post & H). destruct pre as [|x pre]; simpl in H.
      * left. eauto.
      * right. inversion H; subst. eauto.
Qed.

(** X18: [filter_by_title] with an empty query returns the videos as they
    are; with any other query it keeps, in their order, exactly the videos
    whose title contains the query when both are put in lower case. *)
Theorem filter_by_title_contains videos query :
  filter_by_title videos "" = videos
  /\ (query <> "" ->
      (exists keep, filter_by_title videos query = filter keep videos)
      /\ forall v, In v (filter_by_title videos query)
                   <-> In v videos
                       /\ contains (lower query) (lower (title v))).
Proof.
  split; [reflexivity|]. intros Hq.
  destruct query as [|c q]; [congruence|]. cbn [filter_by_title]. split.
  - eexists. reflexivity.
  - intros v. rewrite filter_In, str_in_iff. reflexivity.
Qed.

Lemma filter_by_title_contains_witness :
  let a := mkVideo "a" "u" "n" "The Big One" None None None None None 3 5 5 in
  let b := mkVideo "b" "u" "n" "small" None None None None None 3 5 5 in
  In a (filter_by_title [a; b] "BIG")
  <-> In a [a; b] /\ contains (lower "BIG") (lower (title a)).
Proof.
  intros a b.
  apply (proj2 (proj2 (filter_by_title_contains [a; b] "BIG") ltac:(discriminate)) a).
Defined.



(** ** The front page *)




(** ** The pages of [render_section] *)

Lemma firstn_min_length {A} n (l : list A) :
  firstn n l = firstn (Nat.min n (List.length l)) l.
Proof.
  revert l. induction n as [|n IH]; intros l; [reflexivity|].
  destruct l as [|x l]; [reflexivity|]. simpl. rewrite <- IH. reflexivity.
Qed.

Lemma current_videos_chunk videos pp cp :
  1 <= pp -> 0 <= cp ->
  current_videos videos pp cp
  = firstn (Z.to_nat pp) (skipn (Z.to_nat cp * Z.to_nat pp) videos).
Proof.
  intros Hpp Hcp. unfold current_videos, py_slice, slice_index.
  set (len := Z.of_nat (List.length videos)).
  assert (Ha : 0 <= cp * pp) by nia.
  assert ((cp * pp <? 0) = false) as -> by (apply Z.ltb_ge; lia).
  assert ((Z.min (cp * pp + pp) len <? 0) = false) as -> by (apply Z.ltb_ge; lia).
  replace (Z.to_nat cp * Z.to_nat pp)%nat with (Z.to_nat (cp * pp)) by nia.
  destruct (Z_le_gt_dec (cp * pp) len) as [Hle|Hgt].
  - rewrite (Z.min_l (cp * pp) len) by lia.
    rewrite firstn_min_length.
    rewrite (firstn_min_length (Z.to_nat pp)).
    rewrite length_skipn. f_equal. unfold len. lia.
  - rewrite !skipn_all2 by (unfold len in *; lia).
    rewrite !firstn_nil. reflexivity.
Qed.

Lemma current_videos_length videos pp cp :
  1 <= pp -> 0 <= cp < section_total_pages videos pp ->
  (1 <= List.length (current_videos videos pp cp))%nat
  /\ Z.of_nat (List.length (current_videos videos pp cp)) <= pp.
Proof.
  intros Hpp Hcp.
  pose proof (total_pages_ceil (Z.of_nat (List.length videos)) pp Hpp) as Hc.
  fold (section_total_pages videos pp) in Hc.
  rewrite current_videos_chunk by lia.
  rewrite length_firstn, length_skipn. split; nia.
Qed.

(** X21: with a page size of at least 1, the pages 0 to total_pages - 1
    that [render_section] shows, put end to end, are the videos it was
    given, in order, and each of these pages shows at least one and at
    most a page size of videos. *)
Theorem current_videos_pages videos pp :
  1 <= pp ->
  let total_pages := section_total_pages videos pp in
  List.concat (map (fun cp => current_videos videos pp (Z.of_nat cp))
                   (seq 0 (Z.to_nat total_pages)))
  = videos
  /\ forall cp, 0 <= cp < total_pages ->
       (1 <= List.length (current_videos videos pp cp))%nat
       /\ Z.of_nat (List.length (current_videos videos pp cp)) <= pp.
Proof.
  intros Hpp total_pages.
  pose proof (total_pages_ceil (Z.of_nat (List.length videos)) pp Hpp) as Hc.
  fold (section_total_pages videos pp) in Hc. fold total_pages in Hc.
  split.
  - assert (Hmap : map (fun cp => current_videos videos pp (Z.of_nat cp))
                       (seq 0 (Z.to_nat total_pages))
                   = map (fun i => firstn (Z.to_nat pp)
                                          (skipn (i * Z.to_nat pp) videos))
                         (seq 0 (Z.to_nat total_pages))).
    { apply map_ext. intros i. rewrite current_videos_chunk by lia.
      rewrite Nat2Z.id. reflexivity. }
    rewrite Hmap, chunks_concat. apply firstn_all2. nia.
  - intros cp Hcp. apply current_videos_length; auto.
Qed.

Lemma current_videos_pages_witness :
  let v := mkVideo "a" "u" "n" "t" None None None None None 3 5 5 in
  (1 <= List.length (current_videos [v; v; v; v; v] 2 2))%nat
  /\ Z.of_nat (List.length (current_videos [v; v; v; v; v] 2 2)) <= 2.
Proof.
  intros v.
  apply (proj2 (current_videos_pages [v; v; v; v; v] 2 ltac:(lia)) 2).
  split; [lia|]. vm_compute. reflexivity.
Defined.

(** X22: while the list of a section stays the same and the page size is
    at least 1, the page number that [render_section] leaves stays a page
    of the section, whatever is clicked: from a page in [0, total_pages)
    a click leads to a page in [0, total_pages) at most one away, which
    shows at least one video. *)
Theorem render_section_page_in_range videos pp cp c :
  1 <= pp ->
  0 <= cp < section_total_pages videos pp ->
  let cp' := render_section_page videos pp cp c in
  0 <= cp' < section_total_pages videos pp
  /\ -1 <= cp' - cp <= 1
  /\ current_videos videos pp cp' <> [].
Proof.
  intros Hpp Hcp cp'.
  assert (Hr : 0 <= cp' < section_total_pages videos pp /\ -1 <= cp' - cp <= 1).
  { unfold cp', render_section_page. destruct videos as [|v l]; [lia|].
    destruct (1 <? section_total_pages (v :: l) pp); [|lia].
    destruct c.
    - lia.
    - destruct (cp =? 0) eqn:E; [lia|]. apply Z.eqb_neq in E. lia.
    - destruct (section_total_pages (v :: l) pp - 1 <=? cp) eqn:E; [lia|].
      apply Z.leb_gt in E. lia. }
  destruct Hr as [Hr1 Hr2]. split; [exact Hr1|]. split; [exact Hr2|].
  intros Hnil.
  destruct (current_videos_length videos pp cp' Hpp Hr1) as [H _].
  rewrite Hnil in H. simpl in H. lia.
Qed.

Lemma render_section_page_in_range_witness :
  let v := mkVideo "a" "u" "n" "t" None None None None None 3 5 5 in
  let videos := [v; v; v; v; v] in
  render_section_page videos 2 2 ClickNext = 2
  /\ current_videos videos 2 (render_section_page videos 2 2 ClickNext) <> [].
Proof.
  intros v videos.
  destruct (render_section_page_in_range videos 2 2 ClickNext) as (_ & _ & H).
  - lia.
  - split; [lia|]. vm_compute. reflexivity.
  - split; [reflexivity | exact H].
Defined.

(** ** [display_script] *)

Lemma length_substring_0 n : forall s,
  (n <= String.length s)%nat -> String.length (substring 0 n s) = n.
Proof.
  induction n as [|n IH]; intros s Hs.
  - destruct s; reflexivity.
  - destruct s as [|c s]; simpl in *; [lia|]. rewrite IH; [reflexivity|lia].
Qed.

Lemma substring_0_prefix n : forall s,
  (n <= String.length s)%nat -> exists rest, s = substring 0 n s ++ rest.
Proof.
  induction n as [|n IH]; intros s Hs.
  - exists s. destruct s; reflexivity.
  - destruct s as [|c s]; simpl in *; [lia|].
    destruct (IH s) as [rest Hr]; [lia|]. exists rest. rewrite <- Hr. reflexivity.
Qed.

(** X23: the caption that [render_section] shows for a script is never
    longer than 60 characters: a script of at most 60 characters is shown
    as it is, and a longer one is shown as its first 57 characters
    followed by three dots, 60 characters in all. *)
Theorem display_script_fits script :
  (String.length (display_script script) <= 60)%nat
  /\ ((String.length script <= 60)%nat -> display_script script = script)
  /\ ((60 < String.length script)%nat ->
      String.length (display_script script) = 60%nat
      /\ exists head rest,
           String.length head = 57%nat /\ script = head ++ rest
           /\ display_script script = head ++ "...").
Proof.
  unfold display_script.
  destruct (String.length script <=? 60)%nat eqn:E.
  - apply Nat.leb_le in E. split; [exact E|]. split; [reflexivity | lia].
  - apply Nat.leb_gt in E.
    assert (H57 : (57 <= String.length script)%nat) by lia.
    pose proof (length_substring_0 57 script H57) as Hl.
    split; [rewrite string_length_append, Hl; simpl; lia|].
    split; [lia|]. intros _. split.
    + rewrite string_length_append, Hl. reflexivity.
    + destruct (substring_0_prefix 57 script H57) as [rest Hr].
      exists (substring 0 57 script), rest. auto.
Qed.

Lemma display_script_fits_witness :
  display_script "Frankly, my dear" = "Frankly, my dear".
Proof.
  apply (proj1 (proj2 (display_script_fits "Frankly, my dear"))).
  simpl. lia.
Defined.

(** ** Instances for the search properties *)

Lemma search_filter_plain_witness :
  let a := mkVideo "a" "u" "n" "The Big One" None None None None None 3 5 5 in
  search_filter "big" a = true
  <-> (contains (lower "big") (lower (title a))
       \/ contains (lower "big") (lower (name a))
       \/ exists s, script a = Some s /\ contains (lower "big") (lower s)).
Proof.
  intros a. apply (search_filter_plain "big" a). reflexivity.
Defined.

